(** * TransportNodeBLE: the session engine of the BLE transport

    A shallow embedding of
    [packages/hw-transport-node-ble/src/TransportNodeBLE.js].

    Conventions of the embedding.

    - A [BluetoothTransport] object lives in a heap ([transports]) and is
      named by its index there, so that "the same Session" is "the same
      handle".  [transportsCache] is the module-level object literal used
      as a map from device identifier to transport; like every object
      literal it inherits the members of [Object.prototype].
    - A device (noble peripheral) is named by its identifier; what the link
      stack knows about it ([state], the listeners of its "disconnect"
      event) is kept in [devices].  A peripheral the module has never
      touched is disconnected and has no listener.
    - An [await] on the link stack is resolved by the environment: the
      outcome of each such wait is an argument of the function that
      performs it.
    - Every call into the link stack, every timer and four book-keeping
      marks (an entry into the open sequence, an assignment to [mtuSize],
      a call of [exchange], a call of [write]) are appended to [trace],
      oldest first.
    - [logSubject] and [console] output is debugging output and is not
      part of the state. *)

From Stdlib Require Import ZArith.
From Stdlib.Strings Require Import Byte.
From stdpp Require Import gmap strings list fin_maps functions sorting.

(** ** Errors and outcomes of asynchronous calls *)

Inductive Err : Type :=
  | DisconnectedDevice           (* new DisconnectedDevice() *)
  | EmptyError                   (* rxjs first(): no element matched *)
  | RangeError                   (* Buffer.readUInt8 out of range *)
  | ReferenceError               (* an identifier that is bound nowhere *)
  | TypeError                    (* a property read on undefined *)
  | LinkError (msg : string).    (* new Error(error), errors of the streams *)

(** What the caller of an [async] function observes. *)
Inductive Outcome (A : Type) : Type :=
  | Returned (a : A)
  | Thrown (e : Err)
  | Pending.

Arguments Returned {A} a.
Arguments Thrown {A} e.
Arguments Pending {A}.

(** ** Object literals used as maps *)

(** The members every object literal inherits from [Object.prototype]. *)
Definition Object_prototype : list string :=
  ["constructor"; "__defineGetter__"; "__defineSetter__"; "hasOwnProperty";
   "__lookupGetter__"; "__lookupSetter__"; "isPrototypeOf";
   "propertyIsEnumerable"; "toString"; "valueOf"; "__proto__";
   "toLocaleString"].

(** What [o[k]] evaluates to. *)
Inductive Property (A : Type) : Type :=
  | Own (a : A)                  (* a property the module has set *)
  | Inherited (name : string)    (* a member of Object.prototype: truthy *)
  | Undefined.

Arguments Own {A} a.
Arguments Inherited {A} name.
Arguments Undefined {A}.

(** [o[k]], where [o] holds the own properties of an object literal. *)
Definition property {A} (o : gmap string A) (k : string) : Property A :=
  match o !! k with
  | Some a => Own a
  | None =>
      if bool_decide (k ∈ Object_prototype) then Inherited k else Undefined
  end.

(** ** Buffers and the notification stream *)

Definition readUInt8 (buffer : list byte) (offset : nat) : option Z :=
  (λ b, Z.of_N (Byte.to_N b)) <$> buffer !! offset.

(** How the notification stream behaves once its buffers are consumed. *)
Inductive StreamEnd : Type :=
  | StreamSilent
  | StreamCompletes
  | StreamErrors (e : Err).

Record Notifications : Type := mkNotifications {
  buffers : list (list byte);
  ending : StreamEnd
}.

(** [notifyObservable.pipe(first(b => b.readUInt8(0) === 0x08),
                           map(b => b.readUInt8(5)))] *)
Fixpoint first_control (bs : list (list byte)) (e : StreamEnd) : Outcome Z :=
  match bs with
  | [] =>
      match e with
      | StreamSilent => Pending
      | StreamCompletes => Thrown EmptyError
      | StreamErrors err => Thrown err
      end
  | b :: rest =>
      match readUInt8 b 0 with
      | None => Thrown RangeError
      | Some kind =>
          if (kind =? 8)%Z then
            match readUInt8 b 5 with
            | Some size => Returned size
            | None => Thrown RangeError
            end
          else first_control rest e
      end
  end.

(** ** The state *)

Inductive DeviceState : Type := connected | disconnected.

Global Instance DeviceState_eq_dec : EqDecision DeviceState.
Proof. solve_decision. Defined.

(** The listeners the module puts on the "disconnect" event of a
    peripheral. *)
Inductive Listener : Type :=
  | OnDisconnect (h : nat)
      (* addListener: the closure [onDisconnect] of [open] for transport h *)
  | DisconnectCallback
      (* once: [(error) => throw new Error(error)], the callback the module
         hands to [device.disconnect], which the link stack keeps as a
         one-time listener of the event *)
  | WorkaroundOnce.
      (* once: the listener of the reconnect workaround *)

Global Instance Listener_eq_dec : EqDecision Listener.
Proof. solve_decision. Defined.

Record Device : Type := mkDevice {
  state : DeviceState;
  disconnectListeners : list Listener    (* in the order they were added *)
}.

Record Transport : Type := mkTransport {
  id : string;
  mtuSize : Z;
  notYetDisconnected : bool;
  (* fields of the base class Transport, see [exchangeAtomicImpl]: the
     calls that went through the lock of this Session are numbered in
     arrival order; [exchangeBusyPromise] is the busy promise of the call
     that holds the lock, named by the number of that call; [waiting] are
     the queued calls; [settled] are the busy promises already resolved;
     [started] are the calls whose body the lock has let start *)
  exchangeBusyPromise : option nat;
  waiting : list nat;
  arrivals : nat;
  settled : list nat;
  started : list nat
}.

Inductive Event : Type :=
  | Connect (d : string)             (* device.connect(cb) *)
  | DiscoverServices (d : string)    (* device.discoverServices(null, cb) *)
  | Monitor (d : string)             (* monitorCharacteristic(notifyC).subscribe() *)
  | Unmonitor (d : string)           (* notif.unsubscribe() *)
  | FrameWrite (h call : nat) (buffer : list byte)
                                     (* mark: this.write(buffer) called *)
  | Disconnect (d : string)          (* device.disconnect(cb) *)
  | OnceDisconnect (d : string)      (* device.once('disconnect', cb) *)
  | Timer (ms : Z)                   (* setTimeout(s, ms) *)
  | OpenSequence (d : string) (needsReconnect : bool)
                                     (* mark: open(device, needsReconnect) entered *)
  | SetMtuSize (h : nat) (size : Z)  (* mark: this.mtuSize = mtuSize *)
  | Exchange (h call : nat) (apdu : list byte).
                                     (* mark: exchange(apdu) called *)

Record World : Type := mkWorld {
  transportsCache : gmap string nat;    (* the own properties *)
  transports : list Transport;
  devices : string → Device;
  trace : list Event
}.

Definition init : World :=
  mkWorld ∅ [] (λ _, mkDevice disconnected []) [].

(** *** Elementary updates *)

Definition emit (e : Event) (w : World) : World :=
  mkWorld (transportsCache w) (transports w) (devices w) (trace w ++ [e]).

Definition set_cache (c : gmap string nat) (w : World) : World :=
  mkWorld c (transports w) (devices w) (trace w).

Definition set_transports (ts : list Transport) (w : World) : World :=
  mkWorld (transportsCache w) ts (devices w) (trace w).

Definition set_device (d : string) (x : Device) (w : World) : World :=
  mkWorld (transportsCache w) (transports w) (<[d := x]> (devices w)) (trace w).

(** [f] applied to the object behind handle [h]. *)
Definition update (h : nat) (f : Transport → Transport) (w : World) : World :=
  match transports w !! h with
  | Some T => set_transports (<[h := f T]> (transports w)) w
  | None => w
  end.

Definition with_mtuSize (v : Z) (T : Transport) : Transport :=
  mkTransport (id T) v (notYetDisconnected T)
              (exchangeBusyPromise T) (waiting T) (arrivals T) (settled T)
              (started T).

Definition with_notYetDisconnected (b : bool) (T : Transport) : Transport :=
  mkTransport (id T) (mtuSize T) b
              (exchangeBusyPromise T) (waiting T) (arrivals T) (settled T)
              (started T).

Definition with_lock (p : option nat) (q : list nat) (n : nat)
    (s r : list nat) (T : Transport) : Transport :=
  mkTransport (id T) (mtuSize T) (notYetDisconnected T) p q n s r.

(** [this] behind handle [h]; handles given out by [construct] are always
    bound. *)
Definition this (h : nat) (w : World) : Transport :=
  default (mkTransport EmptyString 20 true None [] 0 [] []) (transports w !! h).

(** ** Asynchronous code: state passing with three outcomes *)

Definition Async (A : Type) : Type := World → Outcome A * World.

Definition ret {A} (a : A) : Async A := λ w, (Returned a, w).

Definition throw {A} (e : Err) : Async A := λ w, (Thrown e, w).

(** [await p], where the environment settles [p] with [o]. *)
Definition await {A} (o : Outcome A) : Async A := λ w, (o, w).

Definition perform (f : World → World) : Async unit := λ w, (Returned tt, f w).

Definition get {A} (f : World → A) : Async A := λ w, (Returned (f w), w).

Definition bind {A B} (m : Async A) (k : A → Async B) : Async B :=
  λ w,
    match m w with
    | (Returned a, w') => k a w'
    | (Thrown e, w') => (Thrown e, w')
    | (Pending, w') => (Pending, w')
    end.

Notation "x <- m ;; k" := (bind m (λ x, k))
  (at level 100, m at next level, right associativity).
Notation "m ;;; k" := (bind m (λ _, k))
  (at level 100, right associativity).

(** ** The exchange lock *)

(** Modelled from the spec: [exchangeAtomicImpl] and the lock it keeps in
    [exchangeBusyPromise], which belong to the base class [Transport] of
    package hw-transport and are not in this file.  The spec: an exchange
    or the negotiation runs under the exchange lock of its Session, one at
    a time; the lock is a busy promise held for the duration of the call
    and released on every exit path, failure included; concurrent callers
    are queued and run one after another in arrival order.

    [enter] is the arrival of a call, which takes the number [arrivals T]:
    its body starts at once when the Session is idle and the call is
    queued otherwise.  [leave] is the release: the busy promise of the
    call that holds the lock is resolved and the body of the oldest queued
    call, if any, starts. *)
Definition enter (T : Transport) : Transport :=
  let call := arrivals T in
  match exchangeBusyPromise T with
  | None =>
      with_lock (Some call) (waiting T) (S call) (settled T)
                (started T ++ [call]) T
  | Some _ =>
      with_lock (exchangeBusyPromise T) (waiting T ++ [call])
                (S call) (settled T) (started T) T
  end.

(** Modelled from the spec: the release of the lock described at
    [enter], on every exit path of the call that holds it. *)
Definition leave (T : Transport) : Transport :=
  match exchangeBusyPromise T with
  | Some call =>
      match waiting T with
      | [] =>
          with_lock None [] (arrivals T) (settled T ++ [call]) (started T) T
      | next :: queue =>
          with_lock (Some next) queue (arrivals T) (settled T ++ [call])
                    (started T ++ [next]) T
      end
  | None => T
  end.

(** [enter] and [leave] on the Session behind handle [h]. *)
Definition lock_enter (h : nat) (w : World) : World := update h enter w.

Definition lock_leave (h : nat) (w : World) : World := update h leave w.

(** Modelled from the spec: [exchangeAtomicImpl(f)] for a call whose body
    [f] is not interleaved with other calls (the negotiation inside
    [open]).  A call that finds the Session busy stays queued. *)
Definition exchangeAtomicImpl {A} (h : nat) (f : nat → Async A) : Async A :=
  λ w,
    let call := arrivals (this h w) in
    let w := lock_enter h w in
    if decide (exchangeBusyPromise (this h w) = Some call) then
      match f call w with
      | (Pending, w) => (Pending, w)
      | (o, w) => (o, lock_leave h w)
      end
    else (Pending, w).

(** ** Link events *)

(** [device.addListener("disconnect", l)], [device.once("disconnect", l)] *)
Definition addListener (device : string) (l : Listener) (w : World) : World :=
  set_device device
    (mkDevice (state (devices w device))
              (disconnectListeners (devices w device) ++ [l]))
    w.

(** The oldest listener [l] taken off. *)
Fixpoint without (l : Listener) (ls : list Listener) : list Listener :=
  match ls with
  | [] => []
  | x :: ls => if decide (x = l) then ls else x :: without l ls
  end.

(** A one-time listener takes itself off before it runs. *)
Definition removeOnce (device : string) (l : Listener) (w : World) : World :=
  set_device device
    (mkDevice (state (devices w device))
              (without l (disconnectListeners (devices w device))))
    w.

(** The closure [onDisconnect] built by [open] for transport [h].  The
    event it relays to the listeners of the transport itself is not
    followed further. *)
Definition onDisconnect (h : nat) (w : World) : World :=
  let d := id (this h w) in
  let w := set_cache (delete d (transportsCache w)) w in
  let w := update h (with_notYetDisconnected false) w in
  let w := emit (Unmonitor d) w in
  set_device d
    (mkDevice (state (devices w d))
              (filter (λ l, l ≠ OnDisconnect h) (disconnectListeners (devices w d))))
    w.

(** The emission of the "disconnect" event of peripheral [d] to the
    listeners [ls], oldest first.  The callback handed to
    [device.disconnect] throws, and what a listener throws ends the
    emission: the listeners after it are not called. *)
Fixpoint dispatch (ls : list Listener) (d : string) (w : World) : World :=
  match ls with
  | [] => w
  | OnDisconnect h :: ls => dispatch ls d (onDisconnect h w)
  | WorkaroundOnce :: ls => dispatch ls d (removeOnce d WorkaroundOnce w)
  | DisconnectCallback :: _ => removeOnce d DisconnectCallback w
  end.

(** The link stack reports that peripheral [d] is disconnected: its state
    changes and the event is emitted to the listeners present at that
    moment. *)
Definition disconnect_event (d : string) (w : World) : World :=
  let listeners := disconnectListeners (devices w d) in
  dispatch listeners d (set_device d (mkDevice disconnected listeners) w).

(** [device.disconnect((error) => throw new Error(error))]: the link
    stack keeps the callback for the disconnect event and is asked to
    disconnect. *)
Definition device_disconnect (d : string) (w : World) : World :=
  emit (Disconnect d) (addListener d DisconnectCallback w).

(** ** Methods of [BluetoothTransport] *)

(** [write(buffer)].  The mark says that [write] was called with
    [buffer] on behalf of the atomic call [call]; what [writeNoble], whose
    promise is neither returned nor awaited, hands to the characteristic
    is not followed further. *)
Definition write (h call : nat) (buffer : list byte) (w : World) : World :=
  emit (FrameWrite h call buffer) w.

(** [inferMTU].  [peer] is what the notification stream delivers after the
    request, [drop] tells whether the link reports a disconnection while
    the answer is awaited.  The local [mtu] is the value returned by the
    body. *)
Definition inferMTU (h : nat) (peer : Notifications) (drop : bool) : Async Z :=
  λ w,
    let body : Async Z :=
      exchangeAtomicImpl h (λ call w,
        let w := write h call [x08; x00; x00; x00; x00] w in
        let w := if drop then disconnect_event (id (this h w)) w else w in
        match first_control (buffers peer) (ending peer) with
        | Returned size => (Returned (size + 3)%Z, w)
        | Thrown e => (Thrown e, device_disconnect (id (this h w)) w)
        | Pending => (Pending, w)
        end) in
    match body w with
    | (Returned mtu, w) =>
        let w :=
          if (23 <? mtu)%Z then
            let mtuSize := (mtu - 3)%Z in
            emit (SetMtuSize h mtuSize) (update h (with_mtuSize mtuSize) w)
          else w in
        (Returned (mtuSize (this h w)), w)
    | (Thrown e, w) => (Thrown e, w)
    | (Pending, w) => (Pending, w)
    end.

(** [exchange(apdu)] in three moves, so that calls on one Session can
    overlap: the call arrives at the lock; while its body runs,
    [sendAPDU] calls [write]; the merged promise settles with [o] and the
    [catch] and release follow.  [sendAPDU] and [receiveAPDU] are not in
    this file: the frames written and the way the promise settles are
    arguments.

    The [catch] reads [this.device.gatt.disconnect]: the device is the
    noble peripheral [open] was given, which has no [gatt], so that for a
    Session not yet disconnected the [catch] itself throws, before any
    request to disconnect and instead of the error caught. *)
Definition exchange_call (h : nat) (apdu : list byte) (w : World) : World :=
  lock_enter h (emit (Exchange h (arrivals (this h w)) apdu) w).

Definition exchange_settle (h : nat) (o : Outcome (list byte)) : Async (list byte) :=
  λ w,
    match o with
    | Returned data => (Returned data, lock_leave h w)
    | Thrown e =>
        if notYetDisconnected (this h w)
        then (Thrown TypeError, lock_leave h w)
        else (Thrown e, lock_leave h w)
    | Pending => (Pending, w)
    end.

(** [close]: the wait on [exchangeBusyPromise], then the return. *)
Inductive Closing : Type :=
  | CloseAwaits (p : nat)
  | CloseReturned.

Definition close (h : nat) (w : World) : Closing * World :=
  match exchangeBusyPromise (this h w) with
  | Some p => (CloseAwaits p, w)
  | None => (CloseReturned, w)
  end.

(** [close] after its [await]: it returns once the busy promise [p] is
    resolved. *)
Definition close_resume (h p : nat) (w : World) : Closing * World :=
  if decide (p ∈ settled (this h w))
  then (CloseReturned, w) else (CloseAwaits p, w).

(** [static disconnect(id)].  An inherited member passes the test
    [if (transport)] and has no [device]. *)
Definition disconnect (i : string) : Async unit :=
  λ w,
    match property (transportsCache w) i with
    | Own h => (Returned tt, device_disconnect (id (this h w)) w)
    | Inherited _ => (Thrown TypeError, w)
    | Undefined => (Returned tt, w)
    end.

(** ** The function [open] *)

(** What the environment does during one run of the open sequence. *)
Record Attempt : Type := mkAttempt {
  connecting : Outcome unit;         (* the callback of device.connect *)
  dropWhileDiscovering : bool;       (* a disconnect event during discovery *)
  discovering : Outcome unit;        (* the callbacks of the discovery *)
  beforeMTUTime : Z;                 (* Date.now() *)
  peer : Notifications;              (* the notifications after the request *)
  dropWhileNegotiating : bool;       (* a disconnect event during negotiation *)
  afterMTUTime : Z                   (* Date.now() *)
}.

Inductive DeviceOrId : Type :=
  | ADevice (device : string)
  | AnId (i : string).

(** What [open] hands back: a transport, or the member of
    [Object.prototype] found under the identifier. *)
Inductive Opened : Type :=
  | Session (h : nat)
  | Member (name : string).

(** [const connect = () => new Promise(...)]; [await connect()] *)
Definition connect (device : string) (r : Outcome unit) : Async unit :=
  perform (emit (Connect device)) ;;;
  await r ;;;
  perform (λ w, set_device device
                  (mkDevice connected (disconnectListeners (devices w device))) w).

(** The local [retrieveService]; the service and its two characteristics
    carry no information used here. *)
Definition retrieveService (device : string) (drop : bool) (r : Outcome unit)
  : Async unit :=
  perform (emit (DiscoverServices device)) ;;;
  perform (λ w, if drop then disconnect_event device w else w) ;;;
  await r.

(** [deviceModel], the fourth argument of [new BluetoothTransport(...)] in
    [open]: the identifier is bound nowhere in the module (the import of
    [DeviceModel] is an import of a type), so that evaluating the
    arguments throws before the constructor is entered. *)
Definition deviceModel : Async unit := throw ReferenceError.

(** [new BluetoothTransport(device, writeC, notifyObservable, deviceModel)],
    once its arguments are evaluated *)
Definition construct (device : string) : Async nat :=
  λ w,
    (Returned (length (transports w)),
     set_transports
       (transports w ++ [mkTransport device 20 true None [] 0 [] []]) w).

(** [transportsCache[transport.id] = transport] *)
Definition register (h : nat) (w : World) : World :=
  set_cache (<[id (this h w) := h]> (transportsCache w)) w.

(** The local [disconnect] of the workaround: it adds a one-time listener
    and returns. *)
Definition workaround_disconnect (device : string) : Async unit :=
  perform (λ w, emit (OnceDisconnect device)
                  (addListener device WorkaroundOnce w)).

(** [open(deviceOrId, needsReconnect)].  Each run of the open sequence
    consumes one [Attempt] of the environment. *)
Fixpoint open (env : list Attempt) (deviceOrId : DeviceOrId)
    (needsReconnect : bool) {struct env} : Async Opened :=
  match deviceOrId with
  | AnId i =>
      λ w,
        match property (transportsCache w) i with
        | Own h => (Returned (Session h), w)
        | Inherited name => (Returned (Member name), w)
        | Undefined => (Thrown DisconnectedDevice, w)
        end
  | ADevice device =>
      match env with
      | [] => await Pending
      | a :: env' =>
          perform (emit (OpenSequence device needsReconnect)) ;;;
          st <- get (λ w, state (devices w device)) ;;
          (if decide (st = disconnected)
           then connect device (connecting a) else ret tt) ;;;
          retrieveService device (dropWhileDiscovering a) (discovering a) ;;;
          perform (emit (Monitor device)) ;;;
          deviceModel ;;;
          transport <- construct device ;;
          st <- get (λ w, state (devices w device)) ;;
          if decide (st = disconnected) then throw DisconnectedDevice else
          perform (register transport) ;;;
          perform (addListener device (OnDisconnect transport)) ;;;
          λ w,
            match inferMTU transport (peer a) (dropWhileNegotiating a) w with
            | (Pending, w) => (Pending, w)
            | (o, w) =>
                (* finally *)
                let needsReconnect :=
                  if (afterMTUTime a - beforeMTUTime a <? 500)%Z
                  then false else needsReconnect in
                let '(_, w) :=
                  (if needsReconnect
                   then workaround_disconnect device ;;;
                        perform (emit (Timer 1000))
                   else ret tt) w in
                match o with
                | Thrown e => (Thrown e, w)
                | _ =>
                    if needsReconnect
                    then open env' (ADevice device) false w
                    else (Returned (Session transport), w)
                end
            end
      end
  end.

(** [static open(deviceOrId)] *)
Definition BluetoothTransport_open (env : list Attempt) (deviceOrId : DeviceOrId)
  : Async Opened :=
  open env deviceOrId true.

(** ** [listen] *)

Record Peripheral : Type := mkPeripheral {
  uuid : string;
  localName : option string          (* advertisement.localName *)
}.

Record Listening : Type := mkListening {
  discoveredDevices : gmap string Peripheral;    (* the own properties *)
  unsubscribed : bool;
  attached : bool;                   (* detectingDevices listens to "discover" *)
  next : list Peripheral             (* observer.next({type: "add", descriptor}) *)
}.

Definition truthy (name : option string) : bool :=
  match name with
  | Some s => negb (String.eqb s EmptyString)
  | None => false
  end.

Definition detectingDevices (peripheral : Peripheral) (l : Listening) : Listening :=
  if negb (bool_decide (localName peripheral = Some "unknown"))
     && truthy (localName peripheral)
  then
    match property (discoveredDevices l) (uuid peripheral) with
    | Own _ | Inherited _ => l
    | Undefined =>
        mkListening
          (<[uuid peripheral := peripheral]> (discoveredDevices l))
          (unsubscribed l) (attached l)
          (if unsubscribed l then next l else next l ++ [peripheral])
    end
  else l.

Definition unsubscribe (l : Listening) : Listening :=
  mkListening (discoveredDevices l) true false (next l).

Inductive ScanEvent : Type :=
  | Discover (peripheral : Peripheral)   (* noble emits "discover" *)
  | Unsubscribe.                         (* the caller unsubscribes *)

Definition scan (l : Listening) (e : ScanEvent) : Listening :=
  match e with
  | Discover peripheral => if attached l then detectingDevices peripheral l else l
  | Unsubscribe => unsubscribe l
  end.

(** [listen(observer)] followed by the scan events [events]: the add events
    handed to the observer.  [poweredOn] is [noble.state === "poweredOn"];
    otherwise [requiresBluetooth] throws before anything is listened to. *)
Definition listen (poweredOn : bool) (events : list ScanEvent) : list Peripheral :=
  if poweredOn
  then next (foldl scan (mkListening ∅ false true []) events)
  else [].

(** ** Executions *)

(** The moves of an execution: the operations the module offers its
    callers ([open], [exchange] in its three moves, [close],
    [disconnect]) and the disconnect event of the link stack.  A call of
    [open] is one move, during which the link may drop at the waits of
    [Attempt].  The body of an exchange writes and settles between the
    moment the lock lets it start and the moment it settles; when that
    is, the lock alone decides. *)
Inductive step : World → World → Prop :=
  | step_open env deviceOrId w :
      step w (BluetoothTransport_open env deviceOrId w).2
  | step_exchange_call h apdu w :
      h < length (transports w) →
      step w (exchange_call h apdu w)
  | step_exchange_write h call apdu buffer w :
      call ∈ started (this h w) → call ∉ settled (this h w) →
      Exchange h call apdu ∈ trace w →
      step w (write h call buffer w)
  | step_exchange_settle h call apdu o w :
      call ∈ started (this h w) → call ∉ settled (this h w) →
      Exchange h call apdu ∈ trace w →
      step w (exchange_settle h o w).2
  | step_close h w :
      step w (close h w).2
  | step_disconnect i w :
      step w (disconnect i w).2
  | step_disconnect_event d w :
      step w (disconnect_event d w).

(** The Sessions an execution starts with.  [open] stops at [deviceModel],
    so that no move of an execution constructs a transport; a Session
    that exists is taken as given, in the state the lines of [open] after
    [deviceModel] put it in: constructed for its connected device,
    registered, listening to the disconnect event of the device, its
    packet size negotiated with [peer]. *)
Definition given_session (device : string) (peer : Notifications)
    (drop : bool) (w : World) : World :=
  let w :=
    set_device device
      (mkDevice connected (disconnectListeners (devices w device))) w in
  let h := length (transports w) in
  (inferMTU h peer drop
     (addListener device (OnDisconnect h) (register h (construct device w).2))).2.

Inductive given : World → Prop :=
  | given_nothing : given init
  | given_more device peer drop w :
      given w → given (given_session device peer drop w).

Definition reachable (w : World) : Prop := ∃ w0, given w0 ∧ rtc step w0 w.

(** ** Reading the trace *)

(** The values assigned to [mtuSize] of transport [h], in order. *)
Definition sets (h : nat) (l : list Event) : list Z :=
  omap (λ e, match e with
             | SetMtuSize h' v => if decide (h' = h) then Some v else None
             | _ => None
             end) l.

(** The calls that called [write] of transport [h], one entry per frame,
    in order. *)
Definition write_calls (h : nat) (l : list Event) : list nat :=
  omap (λ e, match e with
             | FrameWrite h' call _ => if decide (h' = h) then Some call else None
             | _ => None
             end) l.

(** The runs of the open sequence, each with its [needsReconnect]. *)
Definition open_sequences (l : list Event) : list bool :=
  omap (λ e, match e with OpenSequence _ b => Some b | _ => None end) l.

Definition timeouts (l : list Event) : list Z :=
  omap (λ e, match e with Timer ms => Some ms | _ => None end) l.

(** The devices the module asked the link stack to disconnect. *)
Definition disconnects (l : list Event) : list string :=
  omap (λ e, match e with Disconnect d => Some d | _ => None end) l.

(** ** Invariants of the executions *)

(** A transport in the cache sits under its own identifier, has not seen
    a disconnect event, and its [onDisconnect] listens to its device;
    every [onDisconnect] attached to a device belongs to a transport of
    that device. *)
Definition registry_ok (w : World) : Prop :=
  (∀ k h, transportsCache w !! k = Some h →
     h < length (transports w) ∧ id (this h w) = k ∧
     notYetDisconnected (this h w) = true ∧
     OnDisconnect h ∈ disconnectListeners (devices w k)) ∧
  (∀ d h, OnDisconnect h ∈ disconnectListeners (devices w d) →
     h < length (transports w) ∧ id (this h w) = d).

(** [mtuSize] is 20 and was never assigned, or it was assigned once and
    holds the value assigned, which is above 20. *)
Definition mtu_ok (w : World) : Prop :=
  ∀ h,
    (sets h (trace w) = [] ∧ mtuSize (this h w) = 20%Z) ∨
    (∃ v, sets h (trace w) = [v] ∧ mtuSize (this h w) = v ∧ (20 < v)%Z ∧
          h < length (transports w)).

(** The lock of a Session whose [write] was called by [writes]: the
    calls start in arrival order and those that have arrived and not
    started wait, in arrival order; the calls that have started are
    settled, but for the one that holds the lock; nobody waits for a free
    lock; the frames come in the order of their calls, from calls that
    have started. *)
Definition lock_wf (writes : list nat) (T : Transport) : Prop :=
  started T ++ waiting T = seq 0 (arrivals T) ∧
  settled T ++ option_list (exchangeBusyPromise T) = started T ∧
  (exchangeBusyPromise T = None → waiting T = []) ∧
  StronglySorted le writes ∧
  Forall (λ c, c ∈ started T) writes.

Definition lock_ok (w : World) : Prop :=
  ∀ h, lock_wf (write_calls h (trace w)) (this h w).

(** Two worlds with the same cache, the same [onDisconnect] listeners
    and the same sessions as far as [id] and [notYetDisconnected] go. *)
Definition session_same (w w' : World) : Prop :=
  transportsCache w' = transportsCache w ∧
  (∀ d h, OnDisconnect h ∈ disconnectListeners (devices w' d) ↔
          OnDisconnect h ∈ disconnectListeners (devices w d)) ∧
  length (transports w') = length (transports w) ∧
  (∀ h, id (this h w') = id (this h w)) ∧
  (∀ h, notYetDisconnected (this h w') = notYetDisconnected (this h w)).

(** Events that are neither a frame written nor an assignment to
    [mtuSize]. *)
Definition quiet_event (e : Event) : bool :=
  match e with
  | FrameWrite _ _ _ | SetMtuSize _ _ => false
  | _ => true
  end.

(** Two worlds that differ in nothing [mtu_ok] and [lock_ok] look at. *)
Definition quiet (w w' : World) : Prop :=
  length (transports w') = length (transports w) ∧
  (∀ h, mtuSize (this h w') = mtuSize (this h w) ∧
        exchangeBusyPromise (this h w') = exchangeBusyPromise (this h w) ∧
        waiting (this h w') = waiting (this h w) ∧
        arrivals (this h w') = arrivals (this h w) ∧
        settled (this h w') = settled (this h w) ∧
        started (this h w') = started (this h w)) ∧
  (∀ h, sets h (trace w') = sets h (trace w)) ∧
  (∀ h, write_calls h (trace w') = write_calls h (trace w)).

Definition inv (w : World) : Prop :=
  registry_ok w ∧ mtu_ok w ∧ lock_ok w.



(** From [w] to [w'] no Session was constructed and none came back to
    life: the transports are the same in number, each under the
    identifier it had, and one that has not been told of a disconnection
    had not been told before. *)
Definition fades (w w' : World) : Prop :=
  length (transports w') = length (transports w) ∧
  ∀ h, id (this h w') = id (this h w) ∧
       (notYetDisconnected (this h w') = true →
        notYetDisconnected (this h w) = true).

(** ** Discovery *)

(** An advertised name that is present: neither missing, nor empty, nor
    the literal "unknown". *)
Definition named (p : Peripheral) : Prop :=
  ∃ s, localName p = Some s ∧ s ≠ EmptyString ∧ s ≠ "unknown".

(** The add events handed out so far are for named devices, one per
    identifier, all of them recorded in [discoveredDevices]. *)
Definition listening_ok (l : Listening) : Prop :=
  NoDup (uuid <$> next l) ∧
  Forall named (next l) ∧
  (∀ p, p ∈ next l → is_Some (discoveredDevices l !! uuid p)).

(** ** What a call adds to the trace *)

(** [w'] continues [w] with events that all satisfy [P]. *)
Definition continues (P : Event → bool) (w w' : World) : Prop :=
  ∃ l, trace w' = trace w ++ l ∧ forallb P l = true.

(** Neither an entry into the open sequence nor a timer. *)
Definition calm (e : Event) : bool :=
  match e with
  | OpenSequence _ _ | Timer _ => false
  | _ => true
  end.

(** No request to disconnect. *)
Definition peaceful (e : Event) : bool :=
  match e with
  | Disconnect _ => false
  | _ => true
  end.

(** ** The stages of one run of the open sequence *)

(** The world after the entry mark and, for a disconnected device, a
    successful [connect]. *)
Definition after_connect (device : string) (needsReconnect : bool) (w : World)
  : World :=
  let w0 := emit (OpenSequence device needsReconnect) w in
  if decide (state (devices w device) = disconnected)
  then set_device device
         (mkDevice connected (disconnectListeners (devices w device)))
         (emit (Connect device) w0)
  else w0.

(** The world when the discovery settles. *)
Definition after_discovery (a : Attempt) (device : string)
    (needsReconnect : bool) (w : World) : World :=
  let w2 := emit (DiscoverServices device) (after_connect device needsReconnect w) in
  if dropWhileDiscovering a then disconnect_event device w2 else w2.

(** The world in which the arguments of the constructor are evaluated. *)
Definition before_construct (a : Attempt) (device : string)
    (needsReconnect : bool) (w : World) : World :=
  emit (Monitor device) (after_discovery a device needsReconnect w).

(** ** Other devices *)

(** From [w] to [w'] nothing happened to device [k]: its registry entry,
    its link state and listeners, and the Sessions opened on it are the
    same. *)
Definition untouched (k : string) (w w' : World) : Prop :=
  length (transports w) ≤ length (transports w') ∧
  transportsCache w' !! k = transportsCache w !! k ∧
  devices w' k = devices w k ∧
  (∀ h, h < length (transports w) → id (this h w) = k → this h w' = this h w).

(** ** The frames [open] writes *)


(** ** What an exchange can change *)

(** From [w] to [w'] nothing changed but the lock of transport [h] and
    the trace: the registry, the devices, and the identifier, packet
    budget and disconnection mark of every Session are the same, and so
    is every other Session altogether. *)
Definition lock_only (h : nat) (w w' : World) : Prop :=
  transportsCache w' = transportsCache w ∧
  devices w' = devices w ∧
  length (transports w') = length (transports w) ∧
  (∀ h', id (this h' w') = id (this h' w) ∧
         mtuSize (this h' w') = mtuSize (this h' w) ∧
         notYetDisconnected (this h' w') = notYetDisconnected (this h' w)) ∧
  (∀ h', h' ≠ h → this h' w' = this h' w).

(** ** Sample environments *)

(** The peer answers the request with one control frame announcing
    [size]. *)
Definition answer (size : byte) : Notifications :=
  mkNotifications [[x08; x00; x00; x00; x00; size]] StreamSilent.

(** The notification stream ends without an answer. *)
Definition no_answer : Notifications :=
  mkNotifications [] StreamCompletes.

(** A run in which the link stack connects and discovers without
    trouble and the negotiation takes [rtt] ms. *)
Definition attempt (p : Notifications) (rtt : Z) : Attempt :=
  mkAttempt (Returned tt) false (Returned tt) 0 p false rtt.

(** A transport just constructed for device "D". *)
Definition sample_transport : World := (construct "D" init).2.

(** A Session of device "D" whose peer has announced 158. *)
Definition sample_world : World := given_session "D" (answer x9e) false init.

(** Next to it, a Session of device "E". *)
Definition sample_two_devices : World :=
  given_session "E" (answer x40) false sample_world.

(** An exchange in flight on the Session of "D". *)
Definition sample_exchanging : World :=
  exchange_call 0 [xe0; x01] sample_world.

(** That exchange fails. *)
Definition sample_failed_once : World :=
  (exchange_settle 0 (Thrown (LinkError "invalid sequence")) sample_exchanging).2.

(** Two exchanges called one right after the other on the Session of
    "D": the first writes two frames and gets its response, then the
    second writes one. *)
Definition sample_queued : World :=
  exchange_call 0 [xe0; x02] sample_exchanging.

Definition sample_first_frames : World :=
  write 0 1 [x05; x00; x00; x00; x02] (write 0 1 [x05; x00; x01] sample_queued).

Definition sample_first_done : World :=
  (exchange_settle 0 (Returned [x90; x00]) sample_first_frames).2.

Definition sample_second_frame : World :=
  write 0 2 [x05; x00; x00; x00; x02; xe0; x02] sample_first_done.

(** A Session of "D" whose negotiation got no answer, which has left a
    disconnect request with its callback on the device, and a second
    Session of "D" after it. *)
Definition sample_request_waiting : World :=
  given_session "D" (answer x40) false (given_session "D" no_answer false init).

(** * Properties *)

(** ** How the elementary updates act on each component *)

Section Components.
Context (w : World).

Lemma this_emit h e : this h (emit e w) = this h w.
Proof. reflexivity. Qed.

Lemma this_set_cache h c : this h (set_cache c w) = this h w.
Proof. reflexivity. Qed.

Lemma this_set_device h d x : this h (set_device d x w) = this h w.
Proof. reflexivity. Qed.

Lemma length_update h f :
  length (transports (update h f w)) = length (transports w).
Proof.
  unfold update. destruct (transports w !! h); simpl; [|done].
  by rewrite length_insert.
Qed.

Lemma this_update_eq h f :
  h < length (transports w) → this h (update h f w) = f (this h w).
Proof.
  intros Hlt. unfold update, this.
  destruct (lookup_lt_is_Some_2 _ _ Hlt) as [T HT]. rewrite HT. simpl.
  by rewrite list_lookup_insert_eq.
Qed.

Lemma this_update_ne h h' f :
  h ≠ h' → this h (update h' f w) = this h w.
Proof.
  intros Hne. unfold update, this.
  destruct (transports w !! h') eqn:E; [|done]. simpl.
  by rewrite list_lookup_insert_ne.
Qed.

Lemma update_out_of_range h f :
  length (transports w) ≤ h → update h f w = w.
Proof.
  intros Hge. unfold update. by rewrite (lookup_ge_None_2 _ _ Hge).
Qed.

(** A projection that [f] leaves alone is left alone by [update]. *)
Lemma this_update_keeps {A} (g : Transport → A) h h' f :
  (∀ T, g (f T) = g T) → g (this h (update h' f w)) = g (this h w).
Proof.
  intros Hg. destruct (decide (h = h')) as [->|Hne].
  - destruct (decide (h' < length (transports w))).
    + by rewrite this_update_eq.
    + rewrite update_out_of_range; [done|lia].
  - by rewrite this_update_ne.
Qed.

Lemma cache_update h f : transportsCache (update h f w) = transportsCache w.
Proof. unfold update. by destruct (transports w !! h). Qed.

Lemma devices_update h f : devices (update h f w) = devices w.
Proof. unfold update. by destruct (transports w !! h). Qed.

Lemma trace_update h f : trace (update h f w) = trace w.
Proof. unfold update. by destruct (transports w !! h). Qed.

Lemma this_out_of_range h :
  length (transports w) ≤ h →
  this h w = mkTransport EmptyString 20 true None [] 0 [] [].
Proof. intros Hge. unfold this. by rewrite (lookup_ge_None_2 _ _ Hge). Qed.
End Components.

Lemma this_construct_new device w :
  this (length (transports w)) (construct device w).2
  = mkTransport device 20 true None [] 0 [] [].
Proof.
  unfold this, construct. simpl.
  by rewrite lookup_app_r, Nat.sub_diag by lia.
Qed.

Lemma this_construct_old device h w :
  h ≠ length (transports w) → this h (construct device w).2 = this h w.
Proof.
  intros Hne. unfold this, construct. simpl.
  destruct (decide (h < length (transports w))).
  - by rewrite lookup_app_l.
  - rewrite !lookup_ge_None_2; [done|lia|]. rewrite length_app. simpl. lia.
Qed.

Lemma length_construct device w :
  length (transports (construct device w).2) = S (length (transports w)).
Proof. unfold construct. simpl. rewrite length_app. simpl. lia. Qed.

Create Rewrite HintDb world.

#[local] Hint Rewrite this_emit this_set_cache this_set_device length_update
  cache_update devices_update trace_update : world.

(** ** Listeners *)

Lemma elem_of_without l x ls : x ≠ l → x ∈ without l ls ↔ x ∈ ls.
Proof.
  intros Hne. induction ls as [|y ls IH]; simpl; [done|].
  case_decide as Hy.
  - subst y. rewrite elem_of_cons. split; [by right|].
    intros [?|?]; [congruence|done].
  - rewrite !elem_of_cons, IH. done.
Qed.

Lemma listeners_addListener device l d w :
  disconnectListeners (devices (addListener device l w) d)
  = if decide (device = d)
    then disconnectListeners (devices w d) ++ [l]
    else disconnectListeners (devices w d).
Proof.
  unfold addListener. simpl. case_decide as Hd.
  - subst d. by rewrite fn_lookup_insert.
  - by rewrite fn_lookup_insert_ne.
Qed.

Lemma listeners_removeOnce device l d w :
  disconnectListeners (devices (removeOnce device l w) d)
  = if decide (device = d)
    then without l (disconnectListeners (devices w d))
    else disconnectListeners (devices w d).
Proof.
  unfold removeOnce. simpl. case_decide as Hd.
  - subst d. by rewrite fn_lookup_insert.
  - by rewrite fn_lookup_insert_ne.
Qed.

(** What each listener does is done one listener after the other. *)
Lemma dispatch_steps (P : World → Prop) ls d w :
  (∀ h w, OnDisconnect h ∈ ls → P w → P (onDisconnect h w)) →
  (∀ l w, (∀ h, l ≠ OnDisconnect h) → P w → P (removeOnce d l w)) →
  P w → P (dispatch ls d w).
Proof.
  intros Hon Honce. revert w.
  induction ls as [|[h| |] ls IH]; intros w Hw; simpl;
    [done| |by apply Honce|].
  - apply IH.
    + intros h' w' Hin. apply Hon. by apply list_elem_of_further.
    + apply Hon; [apply list_elem_of_here|done].
  - apply IH.
    + intros h' w' Hin. apply Hon. by apply list_elem_of_further.
    + by apply Honce.
Qed.

Lemma dispatch_preserves (P : World → Prop) ls d w :
  (∀ h w, P w → P (onDisconnect h w)) →
  (∀ l w, (∀ h, l ≠ OnDisconnect h) → P w → P (removeOnce d l w)) →
  P w → P (dispatch ls d w).
Proof. intros Hon. apply dispatch_steps. intros h w' _. apply Hon. Qed.

(** ** The registry *)

Lemma registry_ok_same w w' :
  session_same w w' → registry_ok w → registry_ok w'.
Proof.
  intros (Hc & Hl & Hn & Hi & Hf) [H1 H2]. split.
  - intros k h Hk. rewrite Hc in Hk. destruct (H1 k h Hk) as (? & ? & ? & ?).
    rewrite Hn, Hi, Hf, Hl. done.
  - intros d h Hd. rewrite Hl in Hd. destruct (H2 d h Hd) as (? & ?).
    rewrite Hn, Hi. done.
Qed.

Lemma session_same_trans w1 w2 w3 :
  session_same w1 w2 → session_same w2 w3 → session_same w1 w3.
Proof.
  intros (Hc & Hl & Hn & Hi & Hf) (Hc' & Hl' & Hn' & Hi' & Hf').
  split; [by rewrite Hc', Hc|]. split; [intros; by rewrite Hl', Hl|].
  split; [by rewrite Hn', Hn|].
  split; intros; [by rewrite Hi', Hi|by rewrite Hf', Hf].
Qed.

Lemma session_same_emit e w : session_same w (emit e w).
Proof. by repeat split. Qed.

Lemma session_same_update h f w :
  (∀ T, id (f T) = id T) →
  (∀ T, notYetDisconnected (f T) = notYetDisconnected T) →
  session_same w (update h f w).
Proof.
  intros Hi Hf. split; [apply cache_update|].
  split; [intros; by rewrite devices_update|].
  split; [apply length_update|]. split.
  - intros h'. by apply (this_update_keeps w id).
  - intros h'. by apply (this_update_keeps w notYetDisconnected).
Qed.

Lemma id_enter T : id (enter T) = id T.
Proof. unfold enter. by destruct (exchangeBusyPromise T). Qed.

Lemma id_leave T : id (leave T) = id T.
Proof.
  unfold leave. destruct (exchangeBusyPromise T); [|done].
  by destruct (waiting T).
Qed.

Lemma notYetDisconnected_enter T :
  notYetDisconnected (enter T) = notYetDisconnected T.
Proof. unfold enter. by destruct (exchangeBusyPromise T). Qed.

Lemma notYetDisconnected_leave T :
  notYetDisconnected (leave T) = notYetDisconnected T.
Proof.
  unfold leave. destruct (exchangeBusyPromise T); [|done].
  by destruct (waiting T).
Qed.

Lemma mtuSize_enter T : mtuSize (enter T) = mtuSize T.
Proof. unfold enter. by destruct (exchangeBusyPromise T). Qed.

Lemma mtuSize_leave T : mtuSize (leave T) = mtuSize T.
Proof.
  unfold leave. destruct (exchangeBusyPromise T); [|done].
  by destruct (waiting T).
Qed.

Lemma session_same_lock_enter h w : session_same w (lock_enter h w).
Proof.
  apply session_same_update; auto using id_enter, notYetDisconnected_enter.
Qed.

Lemma session_same_lock_leave h w : session_same w (lock_leave h w).
Proof.
  apply session_same_update; auto using id_leave, notYetDisconnected_leave.
Qed.

Lemma session_same_state d st w :
  session_same w
    (set_device d (mkDevice st (disconnectListeners (devices w d))) w).
Proof.
  split; [done|]. split; [|done]. intros d' h. simpl.
  destruct (decide (d = d')) as [->|Hne].
  - by rewrite fn_lookup_insert.
  - by rewrite fn_lookup_insert_ne.
Qed.

(** The one-time listeners come and go without a trace in the
    registry. *)
Lemma session_same_addListener d l w :
  (∀ h, l ≠ OnDisconnect h) → session_same w (addListener d l w).
Proof.
  intros Hl. split; [done|]. split; [|done]. intros d' h.
  rewrite listeners_addListener. case_decide; [|done].
  rewrite elem_of_app, list_elem_of_singleton. split; [|by left].
  intros [?|?]; [done|]. by destruct (Hl h).
Qed.

Lemma session_same_removeOnce d l w :
  (∀ h, l ≠ OnDisconnect h) → session_same w (removeOnce d l w).
Proof.
  intros Hl. split; [done|]. split; [|done]. intros d' h.
  rewrite listeners_removeOnce. case_decide; [|done].
  by rewrite elem_of_without.
Qed.

Lemma session_same_device_disconnect d w :
  session_same w (device_disconnect d w).
Proof.
  unfold device_disconnect.
  eapply session_same_trans; [|apply session_same_emit].
  by apply session_same_addListener.
Qed.

(** One [onDisconnect] keeps the registry well formed. *)
Lemma registry_ok_onDisconnect h w :
  registry_ok w → registry_ok (onDisconnect h w).
Proof.
  intros [H1 H2]. unfold onDisconnect.
  set (d := id (this h w)). split.
  - intros k h1. simpl. autorewrite with world. simpl.
    intros Hk. apply lookup_delete_Some in Hk as [Hne Hk].
    destruct (H1 k h1 Hk) as (Hlt & Hid & Hfl & Hin).
    assert (h1 ≠ h) by (intros ->; subst d; congruence).
    rewrite this_update_ne by done.
    rewrite fn_lookup_insert_ne by done. done.
  - intros d1 h1. simpl. autorewrite with world. simpl.
    rewrite (this_update_keeps _ id) by done.
    destruct (decide (d = d1)) as [<-|Hne].
    + rewrite fn_lookup_insert. simpl.
      intros Hin. apply list_elem_of_filter in Hin as [_ Hin]. by apply H2.
    + rewrite fn_lookup_insert_ne by done. apply H2.
Qed.

Lemma registry_ok_dispatch ls d w :
  registry_ok w → registry_ok (dispatch ls d w).
Proof.
  apply dispatch_preserves.
  - intros h w0. apply registry_ok_onDisconnect.
  - intros l w0 Hl. apply registry_ok_same. by apply session_same_removeOnce.
Qed.

Lemma registry_ok_disconnect_event d w :
  registry_ok w → registry_ok (disconnect_event d w).
Proof.
  intros Hw. unfold disconnect_event. apply registry_ok_dispatch.
  eapply registry_ok_same; [apply session_same_state|done].
Qed.

(** ** Steps that touch neither the lock, nor [mtuSize], nor the frames *)

Lemma quiet_refl w : quiet w w.
Proof. by repeat split. Qed.

Lemma quiet_trans w1 w2 w3 : quiet w1 w2 → quiet w2 w3 → quiet w1 w3.
Proof.
  intros (Hn & Ht & Hs & Hw) (Hn' & Ht' & Hs' & Hw').
  split; [by rewrite Hn', Hn|]. split; [|split].
  - intros h. destruct (Ht h) as (? & ? & ? & ? & ? & ?).
    destruct (Ht' h) as (? & ? & ? & ? & ? & ?). repeat split; congruence.
  - intros h. by rewrite Hs', Hs.
  - intros h. by rewrite Hw', Hw.
Qed.

Lemma sets_snoc h l e :
  sets h (l ++ [e])
  = sets h l ++ match e with
                | SetMtuSize h' v => if decide (h' = h) then [v] else []
                | _ => []
                end.
Proof.
  unfold sets. rewrite omap_app. f_equal. destruct e; try done.
  simpl. by case_decide.
Qed.

Lemma write_calls_snoc h l e :
  write_calls h (l ++ [e])
  = write_calls h l ++ match e with
                       | FrameWrite h' c _ => if decide (h' = h) then [c] else []
                       | _ => []
                       end.
Proof.
  unfold write_calls. rewrite omap_app. f_equal. destruct e; try done.
  simpl. by case_decide.
Qed.

Lemma quiet_emit e w : quiet_event e = true → quiet w (emit e w).
Proof.
  intros He. repeat split; intros h; simpl.
  - rewrite sets_snoc. destruct e; try done; by rewrite app_nil_r.
  - rewrite write_calls_snoc. destruct e; try done; by rewrite app_nil_r.
Qed.

Lemma quiet_set_cache c w : quiet w (set_cache c w).
Proof. by repeat split. Qed.

Lemma quiet_set_device d x w : quiet w (set_device d x w).
Proof. by repeat split. Qed.

Lemma quiet_flag h b w : quiet w (update h (with_notYetDisconnected b) w).
Proof.
  split; [by rewrite length_update|]. split; [|by rewrite trace_update].
  intros h'. repeat split.
  - by apply (this_update_keeps w mtuSize).
  - by apply (this_update_keeps w exchangeBusyPromise).
  - by apply (this_update_keeps w waiting).
  - by apply (this_update_keeps w arrivals).
  - by apply (this_update_keeps w settled).
  - by apply (this_update_keeps w started).
Qed.

Lemma quiet_onDisconnect h w : quiet w (onDisconnect h w).
Proof.
  unfold onDisconnect.
  eapply quiet_trans; [|apply quiet_set_device].
  eapply quiet_trans; [|by apply quiet_emit].
  eapply quiet_trans; [|apply quiet_flag].
  apply quiet_set_cache.
Qed.

Lemma quiet_dispatch ls d w : quiet w (dispatch ls d w).
Proof.
  apply (dispatch_preserves (quiet w)); [| |apply quiet_refl].
  - intros h w0 Hw0. eapply quiet_trans; [done|apply quiet_onDisconnect].
  - intros l w0 _ Hw0. eapply quiet_trans; [done|apply quiet_set_device].
Qed.

Lemma quiet_disconnect_event d w : quiet w (disconnect_event d w).
Proof.
  unfold disconnect_event.
  eapply quiet_trans; [apply quiet_set_device|apply quiet_dispatch].
Qed.

Lemma quiet_device_disconnect d w : quiet w (device_disconnect d w).
Proof.
  unfold device_disconnect.
  eapply quiet_trans; [apply quiet_set_device|by apply quiet_emit].
Qed.

Lemma mtu_ok_quiet w w' : quiet w w' → mtu_ok w → mtu_ok w'.
Proof.
  intros (Hn & Ht & Hs & _) Hw h.
  destruct (Ht h) as (Hm & _). rewrite Hs, Hm, Hn. apply Hw.
Qed.

Lemma lock_ok_quiet w w' : quiet w w' → lock_ok w → lock_ok w'.
Proof.
  intros (_ & Ht & _ & Hc) Hw h. specialize (Hw h).
  destruct (Ht h) as (_ & Hb & Hq & Ha & Hs & Hr).
  unfold lock_wf in *. rewrite Hc, Hb, Hq, Ha, Hs, Hr. apply Hw.
Qed.

(** ** The packet budget *)

Lemma mtu_ok_update h f w :
  (∀ T, mtuSize (f T) = mtuSize T) → mtu_ok w → mtu_ok (update h f w).
Proof.
  intros Hf Hw h'.
  rewrite trace_update, length_update, (this_update_keeps w mtuSize) by done.
  apply Hw.
Qed.

Lemma mtu_ok_emit e w :
  (∀ h v, e ≠ SetMtuSize h v) → mtu_ok w → mtu_ok (emit e w).
Proof.
  intros He Hw h. simpl. rewrite sets_snoc, this_emit.
  destruct e; rewrite ?app_nil_r; try apply Hw.
  by destruct (He h0 size).
Qed.

Lemma sets_out_of_range h w :
  mtu_ok w → length (transports w) ≤ h → sets h (trace w) = [].
Proof. intros Hw Hge. destruct (Hw h) as [[? _]|(v & _ & _ & _ & ?)]; [done|lia]. Qed.

Lemma mtu_ok_construct device w : mtu_ok w → mtu_ok (construct device w).2.
Proof.
  intros Hw h. rewrite length_construct.
  destruct (decide (h = length (transports w))) as [->|Hne].
  - left. rewrite this_construct_new. split; [|done].
    apply (sets_out_of_range _ w); [done|lia].
  - rewrite this_construct_old by done.
    destruct (Hw h) as [?|(v & ? & ? & ? & ?)]; [by left|].
    right. exists v. repeat split; try done. simpl in *. lia.
Qed.

(** The assignment [this.mtuSize = mtuSize] on a transport never assigned
    before. *)
Lemma mtu_ok_assign h v w :
  sets h (trace w) = [] → h < length (transports w) → (20 < v)%Z →
  mtu_ok w →
  mtu_ok (emit (SetMtuSize h v) (update h (with_mtuSize v) w)).
Proof.
  intros Hs Hlt Hv Hw h'. simpl.
  rewrite sets_snoc, this_emit, trace_update, length_update.
  destruct (decide (h = h')) as [<-|Hne].
  - right. exists v. by rewrite Hs, this_update_eq by done.
  - rewrite this_update_ne, app_nil_r by done. apply Hw.
Qed.

(** ** The lock *)

Lemma seq_prefix (l1 l2 : list nat) n :
  l1 ++ l2 = seq 0 n → l1 = seq 0 (length l1).
Proof.
  intros Hl.
  assert (length l1 + length l2 = n) as Hn
    by (rewrite <- length_app, Hl; apply length_seq).
  rewrite <- Hn, seq_app in Hl.
  by apply app_inj_1 in Hl as [? _]; [|by rewrite length_seq].
Qed.

Lemma started_bound T c :
  started T ++ waiting T = seq 0 (arrivals T) → c ∈ started T →
  c < length (started T).
Proof.
  intros Hs Hc. rewrite (seq_prefix _ _ _ Hs) in Hc.
  apply elem_of_seq in Hc. lia.
Qed.

Lemma started_NoDup T :
  started T ++ waiting T = seq 0 (arrivals T) → NoDup (started T).
Proof.
  intros Hs. rewrite (seq_prefix _ _ _ Hs). apply NoDup_seq.
Qed.

(** The call that holds the lock is the last that started and has not
    settled; a call that started and has not settled holds the lock. *)
Lemma lock_wf_holder writes T c :
  lock_wf writes T →
  (exchangeBusyPromise T = Some c ↔ c ∈ started T ∧ c ∉ settled T).
Proof.
  intros (Hseq & Hst & _). pose proof (started_NoDup T Hseq) as Hnd.
  rewrite <- Hst in Hnd. split.
  - intros Hb. rewrite Hb in Hst, Hnd. simpl in *.
    apply NoDup_app in Hnd as (_ & Hdis & _). split.
    + rewrite <- Hst, elem_of_app. right. apply list_elem_of_here.
    + intros Hin. apply (Hdis c Hin). apply list_elem_of_here.
  - intros [Hin Hnot]. rewrite <- Hst, elem_of_app in Hin.
    destruct Hin as [?|Hin]; [done|].
    destruct (exchangeBusyPromise T); simpl in Hin.
    + by apply list_elem_of_singleton in Hin as ->.
    + by apply not_elem_of_nil in Hin.
Qed.

Lemma lock_wf_enter writes T : lock_wf writes T → lock_wf writes (enter T).
Proof.
  intros (Hseq & Hst & Hidle & Hsorted & Hin). unfold lock_wf, enter.
  destruct (exchangeBusyPromise T) as [c|] eqn:Hb; cbn -[seq].
  - split; [by rewrite app_assoc, Hseq, seq_S|]. by repeat split.
  - rewrite (Hidle eq_refl), app_nil_r in *. cbn -[seq] in Hst.
    rewrite ?app_nil_r in Hst.
    split; [by rewrite Hseq, seq_S|]. split; [by rewrite Hst|].
    split; [done|]. split; [done|].
    eapply Forall_impl; [exact Hin|]. intros c Hc. apply elem_of_app. by left.
Qed.

Lemma lock_wf_leave writes T : lock_wf writes T → lock_wf writes (leave T).
Proof.
  intros (Hseq & Hst & Hidle & Hsorted & Hin). unfold lock_wf, leave.
  destruct (exchangeBusyPromise T) as [c|] eqn:Hb; [|by rewrite Hb].
  destruct (waiting T) as [|next queue] eqn:Hq; cbn -[seq] in *.
  - rewrite app_nil_r in Hseq. rewrite !app_nil_r. by repeat split.
  - split; [by rewrite <- app_assoc|]. split; [by rewrite Hst|].
    split; [done|]. split; [done|].
    eapply Forall_impl; [exact Hin|]. intros x Hx. apply elem_of_app. by left.
Qed.

Lemma lock_wf_write writes T call :
  call ∈ started T → call ∉ settled T →
  lock_wf writes T → lock_wf (writes ++ [call]) T.
Proof.
  intros Hcall Hnot Hwf.
  assert (exchangeBusyPromise T = Some call) as Hb
    by by apply (lock_wf_holder writes).
  destruct Hwf as (Hseq & Hst & Hidle & Hsorted & Hin).
  repeat split; try done.
  - apply StronglySorted_app; repeat split; try done; [|repeat constructor].
    intros x y Hx Hy. apply list_elem_of_singleton in Hy as ->.
    rewrite Forall_forall in Hin. apply Hin in Hx.
    apply (started_bound T x Hseq) in Hx.
    rewrite Hb in Hst. simpl in Hst.
    assert (call = length (settled T)) as ->.
    { pose proof (seq_prefix _ _ _ Hseq) as Hp. rewrite <- Hst in Hp.
      rewrite length_app, Nat.add_1_r, seq_S in Hp.
      by apply app_inj_2 in Hp as [_ [= ->]]. }
    rewrite <- Hst, length_app in Hx. simpl in Hx. lia.
  - apply Forall_app. split; [done|]. by apply Forall_singleton.
Qed.

Lemma lock_ok_update h f w :
  (∀ T, exchangeBusyPromise (f T) = exchangeBusyPromise T) →
  (∀ T, waiting (f T) = waiting T) →
  (∀ T, arrivals (f T) = arrivals T) →
  (∀ T, settled (f T) = settled T) →
  (∀ T, started (f T) = started T) →
  lock_ok w → lock_ok (update h f w).
Proof.
  intros Hb Hq Ha Hs Hr Hw h'. specialize (Hw h').
  unfold lock_wf in *.
  rewrite trace_update,
    (this_update_keeps w exchangeBusyPromise), (this_update_keeps w waiting),
    (this_update_keeps w arrivals), (this_update_keeps w settled),
    (this_update_keeps w started) by done.
  done.
Qed.

Lemma lock_ok_emit e w :
  (∀ h c b, e ≠ FrameWrite h c b) → lock_ok w → lock_ok (emit e w).
Proof.
  intros He Hw h. simpl. rewrite write_calls_snoc, this_emit.
  destruct e; rewrite ?app_nil_r; try apply Hw.
  by destruct (He h0 call buffer).
Qed.

Lemma lock_ok_lock_enter h w : lock_ok w → lock_ok (lock_enter h w).
Proof.
  intros Hw h'. unfold lock_enter. rewrite trace_update.
  destruct (decide (h' = h)) as [->|Hne]; [|by rewrite this_update_ne].
  destruct (decide (h < length (transports w))).
  - rewrite this_update_eq by done. by apply lock_wf_enter.
  - rewrite update_out_of_range by lia. done.
Qed.

Lemma lock_ok_lock_leave h w : lock_ok w → lock_ok (lock_leave h w).
Proof.
  intros Hw h'. unfold lock_leave. rewrite trace_update.
  destruct (decide (h' = h)) as [->|Hne]; [|by rewrite this_update_ne].
  destruct (decide (h < length (transports w))).
  - rewrite this_update_eq by done. by apply lock_wf_leave.
  - rewrite update_out_of_range by lia. done.
Qed.

Lemma lock_ok_write h call buffer w :
  call ∈ started (this h w) → call ∉ settled (this h w) →
  lock_ok w → lock_ok (write h call buffer w).
Proof.
  intros Hc Hn Hw h'. unfold write. simpl. rewrite write_calls_snoc, this_emit.
  case_decide as Hh; [subst h'|rewrite app_nil_r; apply Hw].
  by apply lock_wf_write.
Qed.

Lemma write_calls_out_of_range h w :
  lock_ok w → length (transports w) ≤ h → write_calls h (trace w) = [].
Proof.
  intros Hw Hge. destruct (Hw h) as (_ & _ & _ & _ & Hin).
  rewrite this_out_of_range in Hin by done. simpl in Hin.
  destruct (write_calls h (trace w)); [done|].
  apply Forall_cons in Hin as [Hin _]. by apply not_elem_of_nil in Hin.
Qed.

Lemma lock_ok_construct device w : lock_ok w → lock_ok (construct device w).2.
Proof.
  intros Hw h.
  destruct (decide (h = length (transports w))) as [->|Hne].
  - rewrite this_construct_new.
    change (trace (construct device w).2) with (trace w).
    rewrite (write_calls_out_of_range _ w) by (done || lia).
    repeat split; simpl; constructor.
  - rewrite this_construct_old by done. apply Hw.
Qed.

(** A transport that exists not is idle. *)
Lemma busy_in_range h c w :
  exchangeBusyPromise (this h w) = Some c → h < length (transports w).
Proof.
  intros Hb. destruct (decide (h < length (transports w))); [done|].
  by rewrite this_out_of_range in Hb by lia.
Qed.

(** ** The invariants, move by move *)

Lemma registry_ok_construct device w :
  registry_ok w → registry_ok (construct device w).2.
Proof.
  intros [H1 H2]. split.
  - intros k h Hk. destruct (H1 k h Hk) as (Hlt & ? & ? & ?).
    rewrite length_construct, this_construct_old by lia. auto with lia.
  - intros d h Hd. destruct (H2 d h Hd) as (Hlt & ?).
    rewrite length_construct, this_construct_old by lia. auto with lia.
Qed.

(** Registration and the listener together. *)
Lemma registry_ok_register device h w :
  h < length (transports w) → id (this h w) = device →
  notYetDisconnected (this h w) = true →
  registry_ok w →
  registry_ok (addListener device (OnDisconnect h) (register h w)).
Proof.
  intros Hlt Hid Hfl [H1 H2]. unfold addListener, register. rewrite Hid. split.
  - intros k h1. simpl. destruct (decide (device = k)) as [<-|Hne].
    + rewrite lookup_insert_eq, fn_lookup_insert. intros [= <-]. simpl.
      repeat split; try done. apply elem_of_app. right. apply list_elem_of_here.
    + rewrite lookup_insert_ne, fn_lookup_insert_ne by done. apply H1.
  - intros d h1. simpl. destruct (decide (device = d)) as [<-|Hne].
    + rewrite fn_lookup_insert. simpl. rewrite elem_of_app, list_elem_of_singleton.
      intros [Hin|[= ->]]; [by apply H2|done].
    + rewrite fn_lookup_insert_ne by done. apply H2.
Qed.

Lemma inv_same w w' : session_same w w' → quiet w w' → inv w → inv w'.
Proof.
  intros Hs Hq (? & ? & ?). split; [|split].
  - by apply (registry_ok_same w).
  - by apply (mtu_ok_quiet w).
  - by apply (lock_ok_quiet w).
Qed.

Lemma inv_emit e w : quiet_event e = true → inv w → inv (emit e w).
Proof.
  intros He. apply inv_same; [apply session_same_emit|by apply quiet_emit].
Qed.

Lemma inv_state d st w :
  inv w → inv (set_device d (mkDevice st (disconnectListeners (devices w d))) w).
Proof. apply inv_same; [apply session_same_state|apply quiet_set_device]. Qed.

Lemma inv_disconnect_event d w : inv w → inv (disconnect_event d w).
Proof.
  intros (? & ? & ?). split; [|split].
  - by apply registry_ok_disconnect_event.
  - eapply mtu_ok_quiet; [apply quiet_disconnect_event|done].
  - eapply lock_ok_quiet; [apply quiet_disconnect_event|done].
Qed.

Lemma inv_device_disconnect d w : inv w → inv (device_disconnect d w).
Proof.
  apply inv_same;
    [apply session_same_device_disconnect|apply quiet_device_disconnect].
Qed.

Lemma inv_lock_enter h w : inv w → inv (lock_enter h w).
Proof.
  intros (? & ? & ?). split; [|split].
  - eapply registry_ok_same; [apply session_same_lock_enter|done].
  - apply mtu_ok_update; [apply mtuSize_enter|done].
  - by apply lock_ok_lock_enter.
Qed.

Lemma inv_lock_leave h w : inv w → inv (lock_leave h w).
Proof.
  intros (? & ? & ?). split; [|split].
  - eapply registry_ok_same; [apply session_same_lock_leave|done].
  - apply mtu_ok_update; [apply mtuSize_leave|done].
  - by apply lock_ok_lock_leave.
Qed.

Lemma inv_write h call buffer w :
  call ∈ started (this h w) → call ∉ settled (this h w) →
  inv w → inv (write h call buffer w).
Proof.
  intros Hc Hn (? & ? & ?). split; [|split].
  - eapply registry_ok_same; [apply session_same_emit|done].
  - by apply mtu_ok_emit.
  - by apply lock_ok_write.
Qed.

Lemma inv_write_holder h call buffer w :
  exchangeBusyPromise (this h w) = Some call →
  inv w → inv (write h call buffer w).
Proof.
  intros Hb Hw. destruct Hw as (Hr & Hm & Hl).
  destruct (proj1 (lock_wf_holder _ _ call (Hl h)) Hb).
  by apply inv_write.
Qed.

Lemma inv_assign h v w :
  sets h (trace w) = [] → h < length (transports w) → (20 < v)%Z →
  inv w → inv (emit (SetMtuSize h v) (update h (with_mtuSize v) w)).
Proof.
  intros Hs Hlt Hv (? & ? & ?). split; [|split].
  - eapply registry_ok_same; [|done].
    eapply session_same_trans; [|apply session_same_emit].
    by apply session_same_update.
  - by apply mtu_ok_assign.
  - apply lock_ok_emit; [done|]. by apply lock_ok_update.
Qed.

Lemma inv_construct device w : inv w → inv (construct device w).2.
Proof.
  intros (? & ? & ?). split; [|split].
  - by apply registry_ok_construct.
  - by apply mtu_ok_construct.
  - by apply lock_ok_construct.
Qed.

(** What [inferMTU] is made of, with the answer of the peer in view. *)
Lemma inferMTU_steps (P Q : World → Prop) h peer (drop : bool) w :
  (∀ w, P w → P (lock_enter h w)) →
  (∀ call w,
     exchangeBusyPromise (this h w) = Some call →
     P w → P (write h call [x08; x00; x00; x00; x00] w)) →
  (drop = true → ∀ w, P w → P (disconnect_event (id (this h w)) w)) →
  (∀ e w, first_control (buffers peer) (ending peer) = Thrown e →
     P w → P (device_disconnect (id (this h w)) w)) →
  (∀ w, P w → P (lock_leave h w)) →
  (∀ N w, first_control (buffers peer) (ending peer) = Returned N →
     (20 < N)%Z → P w →
     Q (emit (SetMtuSize h (N + 3 - 3))
          (update h (with_mtuSize (N + 3 - 3)) w))) →
  (∀ w, P w → Q w) →
  P w → Q (inferMTU h peer drop w).2.
Proof.
  intros Henter Hwrite Hevent Hdisc Hleave Hassign HPQ Hw.
  unfold inferMTU, exchangeAtomicImpl.
  apply Henter in Hw. case_decide as Hb; [|by apply HPQ].
  apply (Hwrite (arrivals (this h w))) in Hw; [|done].
  set (w1 := write h (arrivals (this h w)) [x08; x00; x00; x00; x00]
               (lock_enter h w)) in *.
  assert (P (if drop then disconnect_event (id (this h w1)) w1 else w1))
    as Hw' by (destruct drop; auto).
  destruct (first_control (buffers peer) (ending peer)) as [size|e|] eqn:Hfc;
    simpl.
  - destruct (23 <? size + 3)%Z eqn:Hsize; simpl.
    + apply (Hassign size); [done|apply Z.ltb_lt in Hsize; lia|].
      by apply Hleave.
    + by apply HPQ, Hleave.
  - apply HPQ, Hleave. by apply (Hdisc e).
  - by apply HPQ.
Qed.

Lemma length_disconnect_event d w :
  length (transports (disconnect_event d w)) = length (transports w).
Proof. by destruct (quiet_disconnect_event d w) as (-> & _). Qed.

Lemma inv_inferMTU h peer drop w :
  sets h (trace w) = [] → h < length (transports w) →
  inv w → inv (inferMTU h peer drop w).2.
Proof.
  intros Hs Hlt Hw.
  apply (inferMTU_steps
           (λ w, inv w ∧ sets h (trace w) = [] ∧ h < length (transports w)) inv);
    try done.
  - intros w0 (? & ? & ?). split; [by apply inv_lock_enter|].
    unfold lock_enter. by rewrite trace_update, length_update.
  - intros call w0 Hb (? & ? & ?). split; [by apply inv_write_holder|].
    unfold write. simpl. by rewrite sets_snoc, app_nil_r.
  - intros _ w0 (? & ? & ?). split; [by apply inv_disconnect_event|].
    destruct (quiet_disconnect_event (id (this h w0)) w0)
      as (-> & _ & -> & _). done.
  - intros e w0 _ (? & ? & ?). split; [by apply inv_device_disconnect|].
    destruct (quiet_device_disconnect (id (this h w0)) w0)
      as (-> & _ & -> & _). done.
  - intros w0 (? & ? & ?). split; [by apply inv_lock_leave|].
    unfold lock_leave. by rewrite trace_update, length_update.
  - intros N w0 _ HN (? & ? & ?). by apply inv_assign; [| |lia|].
  - by intros w0 (? & _).
Qed.

(** ** One run of the open sequence, stage by stage *)

(** Whatever the link stack does, a run ends where the connection fails
    or stays pending, where the discovery does, or else at
    [deviceModel]. *)
Lemma open_unfold a env device nr w :
  open (a :: env) (ADevice device) nr w
  = match (if decide (state (devices w device) = disconnected)
           then connecting a else Returned tt) with
    | Thrown e =>
        (Thrown e, emit (Connect device) (emit (OpenSequence device nr) w))
    | Pending =>
        (Pending, emit (Connect device) (emit (OpenSequence device nr) w))
    | Returned _ =>
        match discovering a with
        | Thrown e => (Thrown e, after_discovery a device nr w)
        | Pending => (Pending, after_discovery a device nr w)
        | Returned _ => (Thrown ReferenceError, before_construct a device nr w)
        end
    end.
Proof.
  simpl. unfold before_construct, after_discovery, after_connect.
  unfold bind at 1. unfold perform at 1. unfold bind at 1. unfold get at 1.
  unfold bind at 1. simpl.
  destruct (decide (state (devices w device) = disconnected)) as [Hs|Hs].
  - unfold connect, bind, perform, await.
    destruct (connecting a) as [[]|e|]; [|done|done].
    unfold retrieveService, bind, perform, await, get, deviceModel, throw.
    by destruct (discovering a) as [[]|e|].
  - unfold ret.
    unfold retrieveService, bind, perform, await, get, deviceModel, throw.
    by destruct (discovering a) as [[]|e|].
Qed.

Lemma open_identifier env i nr w :
  open env (AnId i) nr w
  = match property (transportsCache w) i with
    | Own h => (Returned (Session h), w)
    | Inherited name => (Returned (Member name), w)
    | Undefined => (Thrown DisconnectedDevice, w)
    end.
Proof. by destruct env. Qed.

(** A property of the world kept by each move of the open sequence on
    [device] is kept by [open]. *)
Lemma open_runs (P : World → Prop) device :
  (∀ e w, quiet_event e = true → P w → P (emit e w)) →
  (∀ w, P w →
     P (set_device device
          (mkDevice connected (disconnectListeners (devices w device))) w)) →
  (∀ w, P w → P (disconnect_event device w)) →
  ∀ env needsReconnect w,
    P w → P (open env (ADevice device) needsReconnect w).2.
Proof.
  intros He Hs Hev env nr w Hw. destruct env as [|a env]; [done|].
  rewrite open_unfold.
  assert (P (emit (Connect device) (emit (OpenSequence device nr) w))) as H1
    by by apply He, He.
  assert (P (after_discovery a device nr w)) as H4.
  { unfold after_discovery, after_connect.
    assert (P (emit (DiscoverServices device)
                 (if decide (state (devices w device) = disconnected)
                  then set_device device
                         (mkDevice connected
                            (disconnectListeners (devices w device)))
                         (emit (Connect device)
                            (emit (OpenSequence device nr) w))
                  else emit (OpenSequence device nr) w))) as H2.
    { apply He; [done|]. case_decide; [|by apply He].
      exact (Hs (emit (Connect device) (emit (OpenSequence device nr) w)) H1). }
    destruct (dropWhileDiscovering a); [by apply Hev|done]. }
  assert (P (before_construct a device nr w)) as H5 by by apply He.
  destruct (if decide (state (devices w device) = disconnected)
            then connecting a else Returned ()) as [[]|e|]; [|done|done].
  by destruct (discovering a) as [[]|e|].
Qed.

Lemma open_keeps (P : World → Prop) :
  (∀ e w, quiet_event e = true → P w → P (emit e w)) →
  (∀ d w, P w →
     P (set_device d (mkDevice connected (disconnectListeners (devices w d))) w)) →
  (∀ d w, P w → P (disconnect_event d w)) →
  ∀ env deviceOrId needsReconnect w,
    P w → P (open env deviceOrId needsReconnect w).2.
Proof.
  intros He Hs Hev env [device|i] nr w Hw.
  - apply open_runs; auto.
  - rewrite open_identifier. by destruct (property (transportsCache w) i).
Qed.

Lemma inv_open env deviceOrId needsReconnect w :
  inv w → inv (open env deviceOrId needsReconnect w).2.
Proof.
  apply (open_keeps inv).
  - intros e w0. apply inv_emit.
  - intros d w0. apply inv_state.
  - intros d w0. apply inv_disconnect_event.
Qed.

(** ** Every execution keeps the invariants *)

Lemma inv_init : inv init.
Proof.
  split; [|split].
  - split.
    + intros k h Hk. change (transportsCache init) with (∅ : gmap string nat) in Hk.
      by rewrite lookup_empty in Hk.
    + intros d h Hd. by apply not_elem_of_nil in Hd.
  - intros h. by left.
  - intros h. repeat split; simpl; constructor.
Qed.

Lemma inv_exchange_call h apdu w : inv w → inv (exchange_call h apdu w).
Proof. intros Hw. unfold exchange_call. by apply inv_lock_enter, inv_emit. Qed.

Lemma inv_exchange_settle h o w : inv w → inv (exchange_settle h o w).2.
Proof.
  intros Hw. unfold exchange_settle. destruct o as [data|e|]; simpl.
  - by apply inv_lock_leave.
  - destruct (notYetDisconnected (this h w)); by apply inv_lock_leave.
  - done.
Qed.

Lemma inv_disconnect i w : inv w → inv (disconnect i w).2.
Proof.
  intros Hw. unfold disconnect.
  destruct (property (transportsCache w) i); simpl; [|done|done].
  by apply inv_device_disconnect.
Qed.

Lemma inv_step w w' : step w w' → inv w → inv w'.
Proof.
  intros Hstep Hw. destruct Hstep.
  - by apply inv_open.
  - by apply inv_exchange_call.
  - by apply inv_write.
  - by apply inv_exchange_settle.
  - unfold close. by destruct (exchangeBusyPromise (this h w)).
  - by apply inv_disconnect.
  - by apply inv_disconnect_event.
Qed.

Lemma inv_steps w w' : rtc step w w' → inv w → inv w'.
Proof. induction 1; eauto using inv_step. Qed.

Lemma cache_register device l h w :
  transportsCache (addListener device l (register h w))
  = <[id (this h w) := h]> (transportsCache w).
Proof. reflexivity. Qed.

(** The world in which [inferMTU] is called on a given Session. *)
Lemma given_session_new device w :
  let w1 := set_device device
              (mkDevice connected (disconnectListeners (devices w device))) w in
  let h := length (transports w) in
  let w2 := addListener device (OnDisconnect h)
              (register h (construct device w1).2) in
  this h w2 = mkTransport device 20 true None [] 0 [] [] ∧
  length (transports w2) = S h ∧
  transportsCache w2 !! device = Some h ∧
  OnDisconnect h ∈ disconnectListeners (devices w2 device) ∧
  trace w2 = trace w.
Proof.
  intros w1 h w2.
  assert (this h (construct device w1).2
          = mkTransport device 20 true None [] 0 [] []) as Hthis
    by apply (this_construct_new device w1).
  split; [exact Hthis|]. split; [|split; [|split]].
  - apply (length_construct device w1).
  - unfold w2. rewrite cache_register, Hthis. apply lookup_insert_eq.
  - unfold w2. rewrite listeners_addListener, decide_True by done.
    apply elem_of_app. right. apply list_elem_of_here.
  - done.
Qed.

Lemma inv_given_session device peer drop w :
  inv w → inv (given_session device peer drop w).
Proof.
  intros Hw. unfold given_session.
  set (w1 := set_device device
               (mkDevice connected (disconnectListeners (devices w device))) w).
  destruct (given_session_new device w) as (Hthis & Hlen & _ & _ & Htr).
  fold w1 in Hthis, Hlen, Htr.
  change (length (transports w1)) with (length (transports w)).
  set (h := length (transports w)) in *.
  assert (inv w1) as Hw1 by by apply inv_state.
  assert (inv (construct device w1).2) as (Hr & Hm & Hl)
    by by apply inv_construct.
  apply inv_inferMTU.
  - rewrite Htr. apply sets_out_of_range; [apply Hw|]. unfold h. lia.
  - rewrite Hlen. lia.
  - split; [|split].
    + pose proof (this_construct_new device w1) as Hnew.
      change (length (transports w1)) with h in Hnew.
      apply registry_ok_register;
        [|by rewrite Hnew|by rewrite Hnew|done].
      change (h < length (transports (construct device w1).2)).
      rewrite length_construct. unfold w1, h. simpl. lia.
    + eapply mtu_ok_quiet; [|exact Hm]. unfold addListener, register.
      eapply quiet_trans; [apply quiet_set_cache|apply quiet_set_device].
    + eapply lock_ok_quiet; [|exact Hl]. unfold addListener, register.
      eapply quiet_trans; [apply quiet_set_cache|apply quiet_set_device].
Qed.

Lemma inv_given w : given w → inv w.
Proof. induction 1; [apply inv_init|by apply inv_given_session]. Qed.

Lemma inv_reachable w : reachable w → inv w.
Proof.
  intros (w0 & Hg & Hsteps). eapply inv_steps; [exact Hsteps|].
  by apply inv_given.
Qed.

Lemma reachable_given w : given w → reachable w.
Proof. intros Hg. exists w. split; [done|apply rtc_refl]. Qed.

Lemma reachable_step w w' : reachable w → step w w' → reachable w'.
Proof.
  intros (w0 & Hg & Hsteps) Hstep. exists w0. split; [done|].
  by eapply rtc_r.
Qed.

Lemma reachable_steps w w' : reachable w → rtc step w w' → reachable w'.
Proof.
  intros (w0 & Hg & Hsteps) Hmore. exists w0. split; [done|]. by etrans.
Qed.

(** ** No move constructs a Session *)


Lemma fades_trans w1 w2 w3 : fades w1 w2 → fades w2 w3 → fades w1 w3.
Proof.
  intros [Hn H] [Hn' H']. split; [by rewrite Hn', Hn|]. intros h.
  destruct (H h) as [Hi Hf], (H' h) as [Hi' Hf'].
  split; [by rewrite Hi', Hi|auto].
Qed.

Lemma fades_emit e w : fades w (emit e w).
Proof. by split. Qed.

Lemma fades_set_device d x w : fades w (set_device d x w).
Proof. by split. Qed.

Lemma fades_set_cache c w : fades w (set_cache c w).
Proof. by split. Qed.

Lemma fades_update h f w :
  (∀ T, id (f T) = id T) →
  (∀ T, notYetDisconnected (f T) = true → notYetDisconnected T = true) →
  fades w (update h f w).
Proof.
  intros Hi Hf. split; [apply length_update|]. intros h'.
  split; [by apply (this_update_keeps w id)|].
  destruct (decide (h' = h)) as [->|Hne]; [|by rewrite this_update_ne].
  destruct (decide (h < length (transports w))).
  - rewrite this_update_eq by done. apply Hf.
  - by rewrite update_out_of_range by lia.
Qed.



Lemma fades_onDisconnect h w : fades w (onDisconnect h w).
Proof.
  unfold onDisconnect.
  eapply fades_trans; [|apply fades_set_device].
  eapply fades_trans; [|apply fades_emit].
  eapply fades_trans; [apply fades_set_cache|].
  by apply fades_update.
Qed.

Lemma fades_disconnect_event d w : fades w (disconnect_event d w).
Proof.
  unfold disconnect_event.
  apply (dispatch_preserves (fades w)); [| |apply fades_set_device].
  - intros h w0 Hw0. eapply fades_trans; [done|apply fades_onDisconnect].
  - intros l w0 _ Hw0. eapply fades_trans; [done|apply fades_set_device].
Qed.




(** * The properties of the specification *)


(** C6.  A Session is created with packet budget 20; in every reachable
    state its budget is at least 20 and has been assigned at most once,
    with a value above 20, whatever the peers announced. *)
Theorem packet_budget_floor_and_single_update w h :
  reachable w → h < length (transports w) →
  (∀ device w0, mtuSize (this (length (transports w0)) (construct device w0).2) = 20%Z) ∧
  (20 ≤ mtuSize (this h w))%Z ∧
  length (sets h (trace w)) ≤ 1 ∧
  Forall (λ v, (20 < v)%Z) (sets h (trace w)) ∧
  (sets h (trace w) = [] → mtuSize (this h w) = 20%Z).
Proof.
  intros Hr Hlt. destruct (inv_reachable w Hr) as (_ & Hm & _).
  split; [intros device w0; by rewrite this_construct_new|].
  destruct (Hm h) as [[-> ->]|(v & -> & -> & Hv & _)]; simpl.
  - repeat split; (lia || done || constructor).
  - repeat split; try (lia || done). by repeat constructor.
Qed.

(** ** The negotiation *)

Lemma exchangeAtomicImpl_idle {A} h (f : nat → Async A) w :
  exchangeBusyPromise (this h w) = None → h < length (transports w) →
  exchangeAtomicImpl h f w
  = match f (arrivals (this h w)) (lock_enter h w) with
    | (Pending, w') => (Pending, w')
    | (o, w') => (o, lock_leave h w')
    end.
Proof.
  intros Hb Hlt. unfold exchangeAtomicImpl.
  rewrite decide_True; [done|].
  unfold lock_enter. rewrite this_update_eq by done.
  unfold enter. by rewrite Hb.
Qed.

(** A call that finds the Session busy is not the one that holds the
    lock. *)
Lemma exchangeAtomicImpl_busy {A} h (f : nat → Async A) c w :
  lock_ok w → exchangeBusyPromise (this h w) = Some c →
  exchangeAtomicImpl h f w = (Pending, lock_enter h w).
Proof.
  intros Hl Hb. pose proof (busy_in_range h c w Hb) as Hlt.
  unfold exchangeAtomicImpl. rewrite decide_False; [done|].
  unfold lock_enter. rewrite this_update_eq by done.
  unfold enter. rewrite Hb. simpl. intros [= ->].
  destruct (Hl h) as (Hseq & _).
  destruct (proj1 (lock_wf_holder _ _ _ (Hl h)) Hb) as [Hin _].
  apply (started_bound _ _ Hseq) in Hin.
  assert (length (started (this h w) ++ waiting (this h w))
          = arrivals (this h w)) as Hlen by (rewrite Hseq; apply length_seq).
  rewrite length_app in Hlen. lia.
Qed.

Lemma id_onDisconnect h h' w : id (this h (onDisconnect h' w)) = id (this h w).
Proof.
  unfold onDisconnect. simpl.
  rewrite this_set_device, this_emit.
  by rewrite (this_update_keeps _ id).
Qed.

Lemma id_disconnect_event h d w :
  id (this h (disconnect_event d w)) = id (this h w).
Proof. by destruct (fades_disconnect_event d w) as [_ Hf], (Hf h). Qed.

(** The world in which the answer of the peer is awaited. *)
Lemma negotiation_world h (drop : bool) w :
  let w1 := write h (arrivals (this h w)) [x08; x00; x00; x00; x00]
              (lock_enter h w) in
  let w2 := if drop then disconnect_event (id (this h w1)) w1 else w1 in
  length (transports w2) = length (transports w) ∧
  mtuSize (this h w2) = mtuSize (this h w) ∧
  id (this h w2) = id (this h w).
Proof.
  intros w1 w2.
  assert (length (transports w1) = length (transports w) ∧
          mtuSize (this h w1) = mtuSize (this h w) ∧
          id (this h w1) = id (this h w)) as (Hn & Hm & Hi).
  { unfold w1, write, lock_enter. rewrite this_emit. simpl.
    rewrite length_update, (this_update_keeps w mtuSize),
      (this_update_keeps w id); auto using mtuSize_enter, id_enter. }
  unfold w2. destruct drop; [|done].
  destruct (quiet_disconnect_event (id (this h w1)) w1) as (-> & Ht & _).
  destruct (Ht h) as (-> & _). repeat split; try done.
  by rewrite id_disconnect_event.
Qed.

(** The negotiation on an idle Session whose peer announces [N]. *)
Lemma inferMTU_answered h peer drop w N :
  exchangeBusyPromise (this h w) = None → h < length (transports w) →
  first_control (buffers peer) (ending peer) = Returned N →
  (inferMTU h peer drop w).1
  = Returned (mtuSize (this h (inferMTU h peer drop w).2)) ∧
  mtuSize (this h (inferMTU h peer drop w).2)
  = (if (20 <? N)%Z then N else mtuSize (this h w)).
Proof.
  intros Hb Hlt HN. unfold inferMTU.
  rewrite exchangeAtomicImpl_idle by done. rewrite HN.
  destruct (negotiation_world h drop w) as (Hn & Hm & _).
  set (w2 := if drop then _ else _) in *.
  cbv zeta.
  assert ((23 <? N + 3)%Z = (20 <? N)%Z) as ->.
  { destruct (Z.ltb_spec 23 (N + 3)), (Z.ltb_spec 20 N); (done || lia). }
  destruct (20 <? N)%Z; simpl.
  - split; [done|].
    rewrite this_emit, this_update_eq
      by (unfold lock_leave; rewrite length_update; lia).
    simpl. lia.
  - unfold lock_leave. rewrite (this_update_keeps _ mtuSize) by apply mtuSize_leave.
    done.
Qed.

(** C1, as the code has it.  When the control frame of the peer
    announces size [N] (the byte at offset 5), the negotiation returns the
    packet budget of the Session, which is [N] itself when [N] is above 20
    and is left as it was, 20 for a new Session, otherwise: the 3 bytes
    added to the announced size are the 3 bytes taken off again. *)
Theorem negotiated_budget h peer drop w N :
  exchangeBusyPromise (this h w) = None → h < length (transports w) →
  first_control (buffers peer) (ending peer) = Returned N →
  (inferMTU h peer drop w).1
  = Returned (mtuSize (this h (inferMTU h peer drop w).2)) ∧
  mtuSize (this h (inferMTU h peer drop w).2)
  = (if (20 <? N)%Z then N else mtuSize (this h w)).
Proof. apply inferMTU_answered. Qed.

(** ** The exchange lock *)

(** C7.  On every Session the bodies of the calls that go through the
    lock run one at a time and in arrival order.  A call whose body has
    started and has not settled holds the lock, so there is one such call
    at most, and it holds the lock until it settles; the calls settle in
    the order they started; the bodies start in arrival order, no call
    overtaking another, and whoever has arrived and not started waits;
    nobody waits for a free lock.  Hence [write] is called by calls that
    have started and the frames come in the arrival order of the calls
    they belong to: the frames of two calls never interleave.  A
    negotiation that finds the Session busy writes nothing. *)
Theorem exchanges_do_not_interleave w h :
  reachable w →
  let T := this h w in
  (∀ c, c ∈ started T → c ∉ settled T → exchangeBusyPromise T = Some c) ∧
  settled T ++ option_list (exchangeBusyPromise T) = started T ∧
  started T ++ waiting T = seq 0 (arrivals T) ∧
  (exchangeBusyPromise T = None → waiting T = []) ∧
  (∀ c, c ∈ write_calls h (trace w) → c ∈ started T) ∧
  StronglySorted le (write_calls h (trace w)) ∧
  (∀ l1 l2 l3 c c',
     write_calls h (trace w) = l1 ++ c :: l2 ++ c' :: l3 → c ≤ c') ∧
  (∀ c peer drop,
     exchangeBusyPromise T = Some c →
     (inferMTU h peer drop w).1 = Pending ∧
     trace (inferMTU h peer drop w).2 = trace w).
Proof.
  intros Hr T. destruct (inv_reachable w Hr) as (_ & _ & Hl).
  pose proof (Hl h) as Hwf. fold T in Hwf.
  destruct Hwf as (Hseq & Hst & Hidle & Hsorted & Hin).
  split; [|split; [done|split; [done|split; [done|split; [|split;
    [done|split]]]]]].
  - intros c Hc Hn. by apply (lock_wf_holder _ _ c (Hl h)).
  - intros c Hc. rewrite Forall_forall in Hin. by apply Hin.
  - intros l1 l2 l3 c c' Hsplit. rewrite Hsplit in Hsorted.
    apply StronglySorted_app in Hsorted as (_ & _ & Hsorted).
    apply StronglySorted_cons in Hsorted as [Hsorted _].
    rewrite Forall_forall in Hsorted. apply Hsorted.
    apply elem_of_app. right. apply list_elem_of_here.
  - intros c peer drop Hb. unfold inferMTU.
    rewrite (exchangeAtomicImpl_busy h _ c) by done. simpl.
    split; [done|]. unfold lock_enter. apply trace_update.
Qed.

(** ** Closing *)

Lemma settled_exchange_settle h p o w :
  exchangeBusyPromise (this h w) = Some p → o ≠ Pending →
  p ∈ settled (this h (exchange_settle h o w).2).
Proof.
  intros Hb Ho. pose proof (busy_in_range h p w Hb) as Hlt.
  assert (p ∈ settled (this h (lock_leave h w))) as Hleave.
  { unfold lock_leave. rewrite this_update_eq by lia.
    unfold leave. rewrite Hb.
    destruct (waiting (this h w)); simpl;
      (apply elem_of_app; right; apply list_elem_of_here). }
  unfold exchange_settle. destruct o as [data|e|]; simpl; [done| |done].
  by destruct (notYetDisconnected (this h w)).
Qed.

(** C8.  [close] changes nothing in the world, the link connection
    included.  On an idle Session it returns at once; when an exchange is
    in flight it awaits the busy promise of that exchange, which is
    unresolved at that moment, and whatever happens next it returns only
    once that promise is resolved, when the exchange no longer runs; the
    end of the exchange, success or failure, resolves the promise. *)
Theorem close_waits_for_the_exchange w h :
  reachable w →
  (close h w).2 = w ∧
  (exchangeBusyPromise (this h w) = None → (close h w).1 = CloseReturned) ∧
  (∀ p, exchangeBusyPromise (this h w) = Some p →
     (close h w).1 = CloseAwaits p ∧
     (close_resume h p w).1 = CloseAwaits p ∧
     (∀ w', rtc step w w' →
        (close_resume h p w').2 = w' ∧
        ((close_resume h p w').1 = CloseReturned ↔ p ∈ settled (this h w')) ∧
        (p ∈ settled (this h w') → exchangeBusyPromise (this h w') ≠ Some p)) ∧
     (∀ o, o ≠ Pending →
        (close_resume h p (exchange_settle h o w).2).1 = CloseReturned)).
Proof.
  intros Hr.
  assert (∀ w' p, reachable w' → p ∈ settled (this h w') →
                  exchangeBusyPromise (this h w') ≠ Some p) as Hdone.
  { intros w' p Hr' Hp Hb. destruct (inv_reachable w' Hr') as (_ & _ & Hl).
    by destruct (proj1 (lock_wf_holder _ _ p (Hl h)) Hb). }
  split; [unfold close; by destruct (exchangeBusyPromise (this h w))|].
  split; [unfold close; by intros ->|].
  intros p Hb. split; [unfold close; by rewrite Hb|]. split; [|split].
  - unfold close_resume. case_decide as Hp; [|done].
    by destruct (Hdone w p Hr Hp).
  - intros w' Hsteps.
    assert (reachable w') as Hr' by by apply (reachable_steps w).
    unfold close_resume. case_decide as Hp; simpl.
    + repeat split; try done. intros _. by apply Hdone.
    + by repeat split.
  - intros o Ho. unfold close_resume.
    case_decide as Hp; [done|].
    destruct Hp. by apply settled_exchange_settle.
Qed.

(** ** Discovery *)

Lemma detectingDevices_filter p :
  negb (bool_decide (localName p = Some "unknown")) && truthy (localName p) = true →
  named p.
Proof.
  intros H. apply andb_true_iff in H as [Hu Ht].
  apply negb_true_iff, bool_decide_eq_false in Hu.
  destruct (localName p) as [s|] eqn:Hs; [|done]. simpl in Ht.
  exists s. split; [done|]. split.
  - apply negb_true_iff in Ht. by apply String.eqb_neq in Ht.
  - intros ->. by apply Hu.
Qed.

Lemma property_Undefined {A} (o : gmap string A) k :
  property o k = Undefined ↔ o !! k = None ∧ k ∉ Object_prototype.
Proof.
  unfold property. destruct (o !! k); [by split; [|intros []]|].
  case_bool_decide; split; try done. by intros [_ ?].
Qed.

Lemma property_Own {A} (o : gmap string A) k a :
  property o k = Own a ↔ o !! k = Some a.
Proof.
  unfold property. destruct (o !! k).
  - split; congruence.
  - by case_bool_decide.
Qed.

Lemma listening_ok_detectingDevices p l :
  listening_ok l → listening_ok (detectingDevices p l).
Proof.
  intros (Hnd & Hnamed & Hdisc). unfold detectingDevices.
  destruct (negb _ && _) eqn:Hf; [|done].
  destruct (property (discoveredDevices l) (uuid p)) eqn:Hprop; [done|done|].
  apply property_Undefined in Hprop as [Hp _].
  apply detectingDevices_filter in Hf.
  destruct (unsubscribed l); repeat split; simpl.
  - done.
  - done.
  - intros q Hq. destruct (decide (uuid p = uuid q)) as [->|Hne].
    + by rewrite lookup_insert_eq.
    + rewrite lookup_insert_ne by done. by apply Hdisc.
  - rewrite fmap_app. apply NoDup_app. repeat split; [done| |apply NoDup_singleton].
    intros u Hu Hu'. apply list_elem_of_singleton in Hu' as ->.
    apply list_elem_of_fmap in Hu as (q & Hq & Hin).
    apply Hdisc in Hin as [x Hx]. congruence.
  - apply Forall_app. split; [done|]. by apply Forall_singleton.
  - intros q Hq. destruct (decide (uuid p = uuid q)) as [->|Hne].
    + by rewrite lookup_insert_eq.
    + rewrite lookup_insert_ne by done. apply Hdisc.
      apply elem_of_app in Hq as [Hq|Hq]; [done|].
      apply list_elem_of_singleton in Hq. congruence.
Qed.

Lemma listening_ok_scan l e : listening_ok l → listening_ok (scan l e).
Proof.
  intros Hl. destruct e as [p|]; simpl; [|done].
  destruct (attached l); [|done]. by apply listening_ok_detectingDevices.
Qed.

Lemma listening_ok_foldl events l :
  listening_ok l → listening_ok (foldl scan l events).
Proof.
  revert l. induction events as [|e events IH]; intros l Hl; simpl; [done|].
  by apply IH, listening_ok_scan.
Qed.

(** C9.  Whatever the link stack discovers, and however often, [listen]
    hands its observer add events for named devices only, a device
    advertised as "unknown" counting as unnamed, and at most one per
    device identifier. *)
Theorem listen_adds_named_devices_once poweredOn events :
  NoDup (uuid <$> listen poweredOn events) ∧
  Forall named (listen poweredOn events).
Proof.
  unfold listen. destruct poweredOn.
  - destruct (listening_ok_foldl events (mkListening ∅ false true []))
      as (? & ? & _); [|done].
    repeat split; simpl; try constructor. intros p Hp.
    by apply not_elem_of_nil in Hp.
  - split; constructor.
Qed.

(** ** Identifiers that name a member of [Object.prototype] *)

(** C2, at an identifier the claim should refuse.  The registry is
    empty and "toString" names no device, yet [open] finds the member
    [toString] that the registry inherits and returns it: it does not
    fail with [DisconnectedDevice]. *)
Theorem open_returns_an_inherited_member :
  transportsCache init !! "toString" = None ∧
  BluetoothTransport_open [] (AnId "toString") init
  = (Returned (Member "toString"), init).
Proof. split; reflexivity. Qed.

(** C10, at an identifier under which nothing is registered.  The
    registry is empty, yet [disconnect] finds the member [toString] that
    the registry inherits, reads its [device], which is undefined, and
    fails with a [TypeError]. *)
Theorem disconnect_throws_on_an_inherited_member :
  transportsCache init !! "toString" = None ∧
  disconnect "toString" init = (Thrown TypeError, init).
Proof. split; reflexivity. Qed.

(** ** The reconnect workaround *)

(** C3, at an open whose negotiation would take 700 ms.  The link stack
    connects and discovers without trouble, and [open] throws
    [ReferenceError] at [deviceModel]: there is one run of the open
    sequence, no transport, no request to disconnect, no settle delay and
    no second run.  The local [disconnect] of the workaround, for its
    part, adds a listener and asks for no disconnection. *)
Theorem workaround_is_never_reached :
  let env := [attempt (answer x9e) 700; attempt (answer x9e) 100] in
  let r := BluetoothTransport_open env (ADevice "D") init in
  r.1 = Thrown ReferenceError ∧
  trace r.2 = [OpenSequence "D" true; Connect "D"; DiscoverServices "D";
               Monitor "D"] ∧
  transports r.2 = [] ∧
  open_sequences (trace r.2) = [true] ∧
  timeouts (trace r.2) = [] ∧
  disconnects (trace r.2) = [] ∧
  trace (workaround_disconnect "D" init).2 = [OnceDisconnect "D"].
Proof. repeat split; reflexivity. Qed.

(** ** Errors inside an exchange *)

(** C4, at an exchange that fails on a Session not yet disconnected.
    The [catch] of [exchange] throws a [TypeError] of its own: the link
    stack is not asked to disconnect and the caller does not get the
    error of the exchange.  The [catch] of [inferMTU] does both. *)
Theorem failing_exchange_throws_a_type_error :
  let e := LinkError "invalid sequence" in
  notYetDisconnected (this 0 sample_exchanging) = true ∧
  (exchange_settle 0 (Thrown e) sample_exchanging).1 = Thrown TypeError ∧
  disconnects (trace (exchange_settle 0 (Thrown e) sample_exchanging).2)
  = disconnects (trace sample_exchanging) ∧
  (inferMTU 0 no_answer false sample_transport).1 = Thrown EmptyError ∧
  disconnects (trace (inferMTU 0 no_answer false sample_transport).2) = ["D"].
Proof. repeat split; reflexivity. Qed.

(** * Further properties of the code *)

(** ** What [listen] hands to its observer *)

Lemma named_passes p :
  named p →
  negb (bool_decide (localName p = Some "unknown")) && truthy (localName p)
  = true.
Proof.
  intros (s & Hs & Hne & Hnu). rewrite Hs. simpl.
  apply andb_true_iff. split.
  - apply negb_true_iff, bool_decide_eq_false. congruence.
  - apply negb_true_iff. by apply String.eqb_neq.
Qed.

Lemma property_Inherited {A} (o : gmap string A) k name :
  property o k = Inherited name → k ∈ Object_prototype ∧ o !! k = None.
Proof.
  unfold property. destruct (o !! k); [done|]. by case_bool_decide.
Qed.

Lemma scan_grows l e : next l `prefix_of` next (scan l e).
Proof.
  destruct e as [p|]; simpl; [|done].
  destruct (attached l); [|done]. unfold detectingDevices.
  destruct (negb _ && _); [|done].
  destruct (property (discoveredDevices l) (uuid p)); [done|done|]. simpl.
  destruct (unsubscribed l); [done|]. by apply prefix_app_r.
Qed.

Lemma scans_grow events l : next l `prefix_of` next (foldl scan l events).
Proof.
  revert l. induction events as [|e events IH]; intros l; simpl; [done|].
  etrans; [apply scan_grows|apply IH].
Qed.

Lemma scans_detached events l :
  attached l = false → next (foldl scan l events) = next l.
Proof.
  revert l. induction events as [|e events IH]; intros l Hl; simpl; [done|].
  destruct e as [p|]; simpl.
  - rewrite Hl. by apply IH.
  - by rewrite IH.
Qed.

(** While the caller has not unsubscribed, every device recorded in
    [discoveredDevices] has been handed to the observer. *)
Lemma scans_subscribed events l :
  Unsubscribe ∉ events →
  attached l = true → unsubscribed l = false →
  (∀ u, is_Some (discoveredDevices l !! u) → u ∈ uuid <$> next l) →
  let l' := foldl scan l events in
  attached l' = true ∧ unsubscribed l' = false ∧
  (∀ u, is_Some (discoveredDevices l' !! u) → u ∈ uuid <$> next l').
Proof.
  revert l. induction events as [|e events IH]; intros l Hno Ha Hu Hd; simpl;
    [done|].
  apply not_elem_of_cons in Hno as [Hne Hno].
  destruct e as [p|]; [|done]. simpl. rewrite Ha.
  apply IH; try done; unfold detectingDevices;
    destruct (negb _ && _); try done;
    destruct (property (discoveredDevices l) (uuid p)) eqn:Hp; try done.
  simpl. rewrite Hu. intros u. rewrite fmap_app, elem_of_app.
  destruct (decide (uuid p = u)) as [<-|Hpu].
  - intros _. right. simpl. apply list_elem_of_here.
  - rewrite lookup_insert_ne by done. intros Hsome. left. by apply Hd.
Qed.

(** X2.  A named device the link stack discovers before the caller has
    unsubscribed is handed to the observer, whatever else is discovered
    before or after, provided its identifier is not the name of a member
    of [Object.prototype]: such an identifier counts as seen before. *)
Theorem listen_adds_every_named_device earlier p later :
  Unsubscribe ∉ earlier → named p → uuid p ∉ Object_prototype →
  uuid p ∈ uuid <$> listen true (earlier ++ Discover p :: later).
Proof.
  intros Hno Hp Hproto. unfold listen. rewrite foldl_app. simpl.
  destruct (scans_subscribed earlier (mkListening ∅ false true []) Hno)
    as (Ha & Hu & Hd); try done.
  { intros u [x Hx]. simpl in Hx. by rewrite lookup_empty in Hx. }
  set (l := foldl scan _ earlier) in *.
  assert (uuid p ∈ uuid <$> next (detectingDevices p l)) as Hin.
  { unfold detectingDevices. rewrite named_passes by done.
    destruct (property (discoveredDevices l) (uuid p)) eqn:Hl.
    - apply Hd. apply property_Own in Hl. by rewrite Hl.
    - by apply property_Inherited in Hl as [? _].
    - simpl. rewrite Hu, fmap_app, elem_of_app. right. apply list_elem_of_here. }
  rewrite Ha.
  destruct (scans_grow later (detectingDevices p l)) as [k ->].
  rewrite fmap_app, elem_of_app. by left.
Qed.

(** X3.  What [listen] has handed to the observer is never taken back
    or reordered by later discoveries, and once the caller has
    unsubscribed nothing more is handed out. *)
Theorem listen_is_stable_and_stops poweredOn events later :
  listen poweredOn events `prefix_of` listen poweredOn (events ++ later) ∧
  listen poweredOn (events ++ Unsubscribe :: later) = listen poweredOn events.
Proof.
  unfold listen. destruct poweredOn; [|done]. rewrite !foldl_app. split.
  - apply scans_grow.
  - simpl. by rewrite scans_detached.
Qed.

(** ** The answer of the peer *)

Lemma readUInt8_range buffer offset v :
  readUInt8 buffer offset = Some v →
  (0 ≤ v ≤ 255)%Z ∧ offset < length buffer.
Proof.
  unfold readUInt8. intros Hv.
  destruct (buffer !! offset) as [b|] eqn:Hb; [|done].
  injection Hv as <-. split; [|by eapply lookup_lt_Some].
  pose proof (Byte.to_N_bounded b). lia.
Qed.

Lemma first_control_range bs e N :
  first_control bs e = Returned N → (0 ≤ N ≤ 255)%Z.
Proof.
  induction bs as [|b bs IH]; simpl; [by destruct e|].
  destruct (readUInt8 b 0) as [kind|]; [|done].
  destruct (kind =? 8)%Z; [|done].
  destruct (readUInt8 b 5) as [size|] eqn:Hs; [|done].
  intros [= <-]. by apply readUInt8_range in Hs as [? _].
Qed.

(** X4.  The negotiation listens for the first control frame only:
    buffers of another kind that arrive before it are passed over, what
    arrives after it is not looked at, and the answer is the byte at
    offset 5 of that frame, or a [RangeError] when the frame is shorter
    than 6 bytes. *)
Theorem first_control_frame_decides earlier b later e :
  Forall (λ x, ∃ kind, readUInt8 x 0 = Some kind ∧ kind ≠ 8%Z) earlier →
  readUInt8 b 0 = Some 8%Z →
  first_control (earlier ++ b :: later) e
  = match readUInt8 b 5 with
    | Some size => Returned size
    | None => Thrown RangeError
    end ∧
  (length b < 6 → first_control (earlier ++ b :: later) e = Thrown RangeError).
Proof.
  intros Hearlier Hb.
  assert (first_control (earlier ++ b :: later) e
          = match readUInt8 b 5 with
            | Some size => Returned size
            | None => Thrown RangeError
            end) as Heq.
  { induction Hearlier as [|x earlier (kind & Hx & Hkind) _ IH]; simpl.
    - by rewrite Hb.
    - rewrite Hx. apply Z.eqb_neq in Hkind. by rewrite Hkind. }
  split; [done|]. intros Hshort. rewrite Heq.
  destruct (readUInt8 b 5) as [size|] eqn:Hs; [|done].
  apply readUInt8_range in Hs. lia.
Qed.

(** ** An open from a descriptor *)

Section Continues.
Context (P : Event → bool).

Lemma continues_refl w : continues P w w.
Proof. exists []. by rewrite app_nil_r. Qed.

Lemma continues_trans w1 w2 w3 :
  continues P w1 w2 → continues P w2 w3 → continues P w1 w3.
Proof.
  intros (l & Hl & Hp) (l' & Hl' & Hp'). exists (l ++ l').
  rewrite Hl', Hl, app_assoc, forallb_app, Hp, Hp'. done.
Qed.

Lemma continues_emit e w0 w :
  P e = true → continues P w0 w → continues P w0 (emit e w).
Proof.
  intros He Hw. eapply continues_trans; [exact Hw|].
  exists [e]. simpl. by rewrite He.
Qed.

Lemma continues_same_trace w0 w w' :
  trace w' = trace w → continues P w0 w → continues P w0 w'.
Proof. intros Ht (l & Hl & Hp). exists l. by rewrite Ht. Qed.

Lemma continues_update h f w0 w :
  continues P w0 w → continues P w0 (update h f w).
Proof. apply continues_same_trace, trace_update. Qed.

Lemma continues_onDisconnect h w0 w :
  (∀ d, P (Unmonitor d) = true) →
  continues P w0 w → continues P w0 (onDisconnect h w).
Proof.
  intros HP Hw. unfold onDisconnect.
  eapply continues_same_trace; [reflexivity|].
  apply continues_emit; [done|]. by apply continues_update.
Qed.

Lemma continues_disconnect_event d w0 w :
  (∀ d, P (Unmonitor d) = true) →
  continues P w0 w → continues P w0 (disconnect_event d w).
Proof.
  intros HP Hw. unfold disconnect_event.
  apply (dispatch_preserves (continues P w0)); [| |done].
  - intros h w1. by apply continues_onDisconnect.
  - intros l w1 _. by apply continues_same_trace.
Qed.
End Continues.

Lemma open_sequences_calm l : forallb calm l = true → open_sequences l = [].
Proof.
  induction l as [|e l IH]; simpl; [done|].
  intros H. apply andb_true_iff in H as [He Hl].
  unfold open_sequences in *. simpl. destruct e; try done; by apply IH.
Qed.

Lemma timeouts_calm l : forallb calm l = true → timeouts l = [].
Proof.
  induction l as [|e l IH]; simpl; [done|].
  intros H. apply andb_true_iff in H as [He Hl].
  unfold timeouts in *. simpl. destruct e; try done; by apply IH.
Qed.

Lemma disconnects_peaceful l : forallb peaceful l = true → disconnects l = [].
Proof.
  induction l as [|e l IH]; simpl; [done|].
  intros H. apply andb_true_iff in H as [He Hl].
  unfold disconnects in *. simpl. destruct e; try done; by apply IH.
Qed.

Lemma write_calls_quiet h l : forallb quiet_event l = true → write_calls h l = [].
Proof.
  induction l as [|e l IH]; simpl; [done|].
  intros H. apply andb_true_iff in H as [He Hl].
  unfold write_calls in *. simpl. destruct e; try done; by apply IH.
Qed.

Lemma open_sequences_app l1 l2 :
  open_sequences (l1 ++ l2) = open_sequences l1 ++ open_sequences l2.
Proof. apply omap_app. Qed.

Lemma timeouts_app l1 l2 : timeouts (l1 ++ l2) = timeouts l1 ++ timeouts l2.
Proof. apply omap_app. Qed.

Lemma disconnects_app l1 l2 :
  disconnects (l1 ++ l2) = disconnects l1 ++ disconnects l2.
Proof. apply omap_app. Qed.

Lemma write_calls_app h l1 l2 :
  write_calls h (l1 ++ l2) = write_calls h l1 ++ write_calls h l2.
Proof. apply omap_app. Qed.

(** The stages of a run add an entry mark and calls to the link stack,
    nothing else. *)
Lemma stages_continue (P : Event → bool) a device nr w :
  (∀ d, P (Connect d) = true) → (∀ d, P (DiscoverServices d) = true) →
  (∀ d, P (Unmonitor d) = true) → (∀ d, P (Monitor d) = true) →
  continues P (emit (OpenSequence device nr) w)
    (emit (Connect device) (emit (OpenSequence device nr) w)) ∧
  continues P (emit (OpenSequence device nr) w) (after_discovery a device nr w) ∧
  continues P (emit (OpenSequence device nr) w) (before_construct a device nr w).
Proof.
  intros HC HD HU HM.
  assert (continues P (emit (OpenSequence device nr) w)
            (emit (Connect device) (emit (OpenSequence device nr) w))) as H1
    by (apply continues_emit; [done|apply continues_refl]).
  assert (continues P (emit (OpenSequence device nr) w)
            (after_discovery a device nr w)) as H4.
  { unfold after_discovery, after_connect.
    assert (continues P (emit (OpenSequence device nr) w)
              (emit (DiscoverServices device)
                 (if decide (state (devices w device) = disconnected)
                  then set_device device
                         (mkDevice connected
                            (disconnectListeners (devices w device)))
                         (emit (Connect device)
                            (emit (OpenSequence device nr) w))
                  else emit (OpenSequence device nr) w))) as H2.
    { apply continues_emit; [done|]. case_decide; [|apply continues_refl].
      eapply continues_same_trace; [|exact H1]. done. }
    destruct (dropWhileDiscovering a); [|done].
    by apply continues_disconnect_event. }
  split; [done|]. split; [done|].
  unfold before_construct. by apply continues_emit.
Qed.

Lemma cache_onDisconnect_sub h w :
  transportsCache (onDisconnect h w) ⊆ transportsCache w.
Proof. unfold onDisconnect. simpl. rewrite cache_update. apply delete_subseteq. Qed.

Lemma cache_disconnect_event_sub d w :
  transportsCache (disconnect_event d w) ⊆ transportsCache w.
Proof.
  unfold disconnect_event.
  apply (dispatch_preserves (λ w', transportsCache w' ⊆ transportsCache w));
    [| |done].
  - intros h w0 Hw0. etrans; [apply cache_onDisconnect_sub|done].
  - by intros l w0 _ Hw0.
Qed.

Lemma length_before_construct a device nr w :
  length (transports (before_construct a device nr w)) = length (transports w).
Proof.
  unfold before_construct, after_discovery, after_connect. simpl.
  destruct (dropWhileDiscovering a); [rewrite length_disconnect_event|];
    simpl; by case_decide.
Qed.

Lemma length_after_discovery a device nr w :
  length (transports (after_discovery a device nr w)) = length (transports w).
Proof. apply (length_before_construct a device nr w). Qed.

Lemma cache_after_discovery a device nr w :
  transportsCache (after_discovery a device nr w) ⊆ transportsCache w.
Proof.
  unfold after_discovery, after_connect.
  destruct (dropWhileDiscovering a).
  - etrans; [apply cache_disconnect_event_sub|]. simpl. by case_decide.
  - simpl. by case_decide.
Qed.

(** What one run adds to the trace, under its entry mark. *)
Lemma one_run_so_far device nr w w' :
  continues calm (emit (OpenSequence device nr) w) w' →
  open_sequences (trace w') = open_sequences (trace w) ++ [nr] ∧
  timeouts (trace w') = timeouts (trace w).
Proof.
  intros (l & -> & Hl). simpl.
  rewrite !open_sequences_app, !timeouts_app.
  rewrite (open_sequences_calm l), (timeouts_calm l) by done.
  by rewrite !app_nil_r.
Qed.

Lemma one_run_writes_nothing device nr w w' :
  continues (λ e, quiet_event e && peaceful e)
    (emit (OpenSequence device nr) w) w' →
  (∀ h, write_calls h (trace w') = write_calls h (trace w)) ∧
  disconnects (trace w') = disconnects (trace w).
Proof.
  intros (l & -> & Hl). simpl.
  assert (forallb quiet_event l = true ∧ forallb peaceful l = true)
    as [Hq Hp].
  { clear -Hl. induction l as [|e l IH]; simpl in *; [done|].
    apply andb_true_iff in Hl as [He Hl].
    apply andb_true_iff in He as [-> ->]. simpl. by apply IH. }
  split.
  - intros h. rewrite !write_calls_app, (write_calls_quiet h l) by done.
    by rewrite !app_nil_r.
  - rewrite !disconnects_app, (disconnects_peaceful l) by done.
    by rewrite !app_nil_r.
Qed.

(** X5.  An open from a device descriptor never returns a Session.
    When the link stack connects and discovers without an error the open
    throws [ReferenceError], on reaching [deviceModel]; in every case it
    ends after one run of the open sequence, with no transport
    constructed, nothing added to the registry, no frame written, no
    request to disconnect and no settle delay. *)
Theorem open_from_a_descriptor_never_returns a env device needsReconnect w :
  let r := open (a :: env) (ADevice device) needsReconnect w in
  (∀ o, r.1 ≠ Returned o) ∧
  ((state (devices w device) = disconnected → connecting a = Returned tt) →
   discovering a = Returned tt → r.1 = Thrown ReferenceError) ∧
  length (transports r.2) = length (transports w) ∧
  transportsCache r.2 ⊆ transportsCache w ∧
  open_sequences (trace r.2) = open_sequences (trace w) ++ [needsReconnect] ∧
  timeouts (trace r.2) = timeouts (trace w) ∧
  (∀ h, write_calls h (trace r.2) = write_calls h (trace w)) ∧
  disconnects (trace r.2) = disconnects (trace w).
Proof.
  intros r. unfold r. rewrite open_unfold.
  destruct (stages_continue calm a device needsReconnect w)
    as (H1 & H4 & H5); try done.
  destruct (stages_continue (λ e, quiet_event e && peaceful e) a device
              needsReconnect w) as (Q1 & Q4 & Q5); try done.
  pose proof (one_run_so_far _ _ _ _ H1) as [R1 T1].
  pose proof (one_run_so_far _ _ _ _ H4) as [R4 T4].
  pose proof (one_run_so_far _ _ _ _ H5) as [R5 T5].
  pose proof (one_run_writes_nothing _ _ _ _ Q1) as [W1 D1].
  pose proof (one_run_writes_nothing _ _ _ _ Q4) as [W4 D4].
  pose proof (one_run_writes_nothing _ _ _ _ Q5) as [W5 D5].
  pose proof (length_after_discovery a device needsReconnect w) as L4.
  pose proof (cache_after_discovery a device needsReconnect w) as C4.
  destruct (decide (state (devices w device) = disconnected)) as [Hs|Hs].
  - destruct (connecting a) as [[]|e|] eqn:Hc.
    + destruct (discovering a) as [[]|e|] eqn:Hd; by repeat split.
    + repeat split; try done. intros Hconn. by specialize (Hconn Hs).
    + repeat split; try done. intros Hconn. by specialize (Hconn Hs).
  - destruct (discovering a) as [[]|e|] eqn:Hd; by repeat split.
Qed.

(** ** Opening and disconnecting by identifier *)

(** X6.  [open] with an identifier hands back what the registry holds
    under it and touches nothing: the Session registered under the
    identifier; failing that, for an identifier that names a member of
    [Object.prototype], that member; and [DisconnectedDevice] for every
    other identifier.  With nothing registered under the identifier a
    [disconnect] does nothing, but for the names of those members, where
    it throws a [TypeError]. *)
Theorem open_by_identifier env i w :
  (∀ h, transportsCache w !! i = Some h →
     BluetoothTransport_open env (AnId i) w = (Returned (Session h), w)) ∧
  (transportsCache w !! i = None → i ∉ Object_prototype →
     BluetoothTransport_open env (AnId i) w = (Thrown DisconnectedDevice, w) ∧
     disconnect i w = (Returned tt, w)) ∧
  (transportsCache w !! i = None → i ∈ Object_prototype →
     BluetoothTransport_open env (AnId i) w = (Returned (Member i), w) ∧
     disconnect i w = (Thrown TypeError, w)).
Proof.
  unfold BluetoothTransport_open, disconnect. rewrite open_identifier.
  unfold property. split; [by intros h ->|]. split.
  - intros -> Hi. by rewrite bool_decide_eq_false_2.
  - intros -> Hi. by rewrite bool_decide_eq_true_2.
Qed.

Lemma open_cached env i w h :
  transportsCache w !! i = Some h →
  BluetoothTransport_open env (AnId i) w = (Returned (Session h), w).
Proof.
  intros Hc. unfold BluetoothTransport_open. rewrite open_identifier.
  unfold property. by rewrite Hc.
Qed.

(** ** The packet budget fits in a byte *)

Lemma budget_quiet w w' :
  quiet w w' →
  (∀ h, (mtuSize (this h w) ≤ 255)%Z) →
  ∀ h, (mtuSize (this h w') ≤ 255)%Z.
Proof. intros (_ & Hq & _) Hw h. destruct (Hq h) as [-> _]. apply Hw. Qed.

Lemma budget_update h f w :
  (∀ T, (mtuSize T ≤ 255)%Z → (mtuSize (f T) ≤ 255)%Z) →
  (∀ h, (mtuSize (this h w) ≤ 255)%Z) →
  ∀ h', (mtuSize (this h' (update h f w)) ≤ 255)%Z.
Proof.
  intros Hf Hw h'. destruct (decide (h' = h)) as [->|Hne].
  - destruct (decide (h < length (transports w))).
    + rewrite this_update_eq by done. apply Hf, Hw.
    + rewrite update_out_of_range by lia. apply Hw.
  - by rewrite this_update_ne.
Qed.

Lemma budget_construct device w :
  (∀ h, (mtuSize (this h w) ≤ 255)%Z) →
  ∀ h, (mtuSize (this h (construct device w).2) ≤ 255)%Z.
Proof.
  intros Hw h. destruct (decide (h = length (transports w))) as [->|].
  - rewrite this_construct_new. simpl. lia.
  - by rewrite this_construct_old.
Qed.

Lemma budget_inferMTU h peer drop w :
  (∀ h, (mtuSize (this h w) ≤ 255)%Z) →
  ∀ h', (mtuSize (this h' (inferMTU h peer drop w).2) ≤ 255)%Z.
Proof.
  apply (inferMTU_steps (λ w, ∀ h, (mtuSize (this h w) ≤ 255)%Z)
           (λ w, ∀ h, (mtuSize (this h w) ≤ 255)%Z)); try done.
  - intros w0. apply budget_update. intros T. by rewrite mtuSize_enter.
  - intros _ w0. apply budget_quiet, quiet_disconnect_event.
  - intros w0. apply budget_update. intros T. by rewrite mtuSize_leave.
  - intros N w0 HN _ Hw0.
    change (∀ h', (mtuSize (this h' (update h (with_mtuSize (N + 3 - 3)) w0))
                   ≤ 255)%Z).
    apply budget_update; [|done].
    intros T _. simpl. apply first_control_range in HN. lia.
Qed.

Lemma budget_step w w' :
  step w w' →
  (∀ h, (mtuSize (this h w) ≤ 255)%Z) →
  ∀ h, (mtuSize (this h w') ≤ 255)%Z.
Proof.
  intros Hstep Hw. destruct Hstep.
  - revert Hw. apply (open_keeps (λ w, ∀ h, (mtuSize (this h w) ≤ 255)%Z)).
    + by intros e w0 _.
    + by intros d w0.
    + intros d w0. apply budget_quiet, quiet_disconnect_event.
  - unfold exchange_call, lock_enter. apply budget_update; [|done].
    intros T. by rewrite mtuSize_enter.
  - done.
  - unfold exchange_settle. destruct o; simpl; [| |done].
    + apply budget_update; [|done]. intros T. by rewrite mtuSize_leave.
    + destruct (notYetDisconnected (this h w)); simpl;
        (apply budget_update; [|done]); intros T; by rewrite mtuSize_leave.
  - unfold close. by destruct (exchangeBusyPromise (this h w)).
  - unfold disconnect. by destruct (property (transportsCache w) i).
  - apply (budget_quiet w); [apply quiet_disconnect_event|done].
Qed.

Lemma budget_steps w w' :
  rtc step w w' →
  (∀ h, (mtuSize (this h w) ≤ 255)%Z) →
  ∀ h, (mtuSize (this h w') ≤ 255)%Z.
Proof. induction 1; eauto using budget_step. Qed.

Lemma budget_given w : given w → ∀ h, (mtuSize (this h w) ≤ 255)%Z.
Proof.
  induction 1 as [|device peer drop w _ IH].
  - intros h. rewrite this_out_of_range by (simpl; lia). simpl. lia.
  - unfold given_session. apply budget_inferMTU.
    intros h.
    change (mtuSize
              (this h
                 (construct device
                    (set_device device
                       (mkDevice connected
                          (disconnectListeners (devices w device))) w)).2)
            ≤ 255)%Z.
    by apply budget_construct.
Qed.

(** X8.  In every reachable state the packet budget of every Session
    lies between 20 and 255: the only value ever assigned to it is one
    byte of a notification. *)
Theorem packet_budget_fits_in_a_byte w h :
  reachable w → (20 ≤ mtuSize (this h w) ≤ 255)%Z.
Proof.
  intros Hr. split.
  - destruct (inv_reachable w Hr) as (_ & Hm & _).
    destruct (Hm h) as [[_ ->]|(v & _ & -> & ? & _)]; lia.
  - destruct Hr as (w0 & Hg & Hsteps).
    apply (budget_steps w0 w Hsteps). by apply budget_given.
Qed.

(** ** Runs that end before the constructor *)

(** X9.  When connecting or discovering the services fails, [open]
    throws that error after a single run of the open sequence: no
    Session is constructed, nothing is added to the registry, no settle
    delay is waited and the open is not run again, workaround or not. *)
Theorem open_fails_before_a_session_exists a env device needsReconnect w e :
  (state (devices w device) = disconnected ∧ connecting a = Thrown e) ∨
  ((state (devices w device) = disconnected → connecting a = Returned tt) ∧
   discovering a = Thrown e) →
  let r := open (a :: env) (ADevice device) needsReconnect w in
  r.1 = Thrown e ∧
  length (transports r.2) = length (transports w) ∧
  transportsCache r.2 ⊆ transportsCache w ∧
  open_sequences (trace r.2) = open_sequences (trace w) ++ [needsReconnect] ∧
  timeouts (trace r.2) = timeouts (trace w).
Proof.
  intros Hfail r. unfold r. rewrite open_unfold.
  destruct (stages_continue calm a device needsReconnect w)
    as (H1 & H4 & _); try done.
  pose proof (one_run_so_far _ _ _ _ H1) as Hrun1.
  pose proof (one_run_so_far _ _ _ _ H4) as Hrun4.
  destruct Hfail as [[Hs Hc]|[Hc Hd]].
  - rewrite decide_True, Hc by done.
    split; [done|]. split; [done|]. split; [done|]. exact Hrun1.
  - assert ((if decide (state (devices w device) = disconnected)
             then connecting a else Returned ()) = Returned ()) as ->
      by (case_decide; auto).
    rewrite Hd. simpl. split; [done|].
    split; [apply length_after_discovery|].
    split; [apply cache_after_discovery|]. exact Hrun4.
Qed.

(** ** What happens on one device stays on that device *)

Lemma untouched_refl k w : untouched k w w.
Proof. by repeat split. Qed.

Lemma untouched_trans k w1 w2 w3 :
  untouched k w1 w2 → untouched k w2 w3 → untouched k w1 w3.
Proof.
  intros (Hn & Hc & Hd & Ht) (Hn' & Hc' & Hd' & Ht').
  split; [lia|]. split; [congruence|]. split; [congruence|].
  intros h Hlt Hid. rewrite <- (Ht h Hlt Hid). apply Ht'; [lia|].
  by rewrite (Ht h Hlt Hid).
Qed.

Lemma untouched_emit k e w : untouched k w (emit e w).
Proof. by repeat split. Qed.

Lemma untouched_set_device k d x w : k ≠ d → untouched k w (set_device d x w).
Proof.
  intros Hne. repeat split; try done. simpl. by rewrite fn_lookup_insert_ne.
Qed.

Lemma untouched_update k h f w :
  id (this h w) ≠ k → untouched k w (update h f w).
Proof.
  intros Hne. split; [by rewrite length_update|].
  split; [by rewrite cache_update|]. split; [by rewrite devices_update|].
  intros h' _ Hid. apply this_update_ne. congruence.
Qed.

Lemma untouched_onDisconnect k h w :
  id (this h w) ≠ k → untouched k w (onDisconnect h w).
Proof.
  intros Hne. unfold onDisconnect.
  set (d := id (this h w)) in *.
  eapply untouched_trans; [|by apply untouched_set_device].
  eapply untouched_trans; [|apply untouched_emit].
  eapply untouched_trans; [|by apply untouched_update].
  repeat split; try done. simpl. by rewrite lookup_delete_ne.
Qed.

Lemma untouched_dispatch k d ls w :
  k ≠ d → (∀ h, OnDisconnect h ∈ ls → id (this h w) = d) →
  untouched k w (dispatch ls d w).
Proof.
  intros Hne Hls.
  apply (dispatch_steps
           (λ w', untouched k w w' ∧ ∀ h, id (this h w') = id (this h w)));
    [| |split; [apply untouched_refl|done]].
  - intros h w0 Hin [Hu Hid]. split.
    + eapply untouched_trans; [done|]. apply untouched_onDisconnect.
      rewrite Hid, (Hls h Hin). congruence.
    + intros h'. by rewrite id_onDisconnect.
  - intros l w0 _ [Hu Hid]. split; [|done].
    eapply untouched_trans; [done|by apply untouched_set_device].
Qed.

Lemma untouched_disconnect_event k d w :
  k ≠ d → registry_ok w → untouched k w (disconnect_event d w).
Proof.
  intros Hne [_ H2]. unfold disconnect_event.
  eapply untouched_trans; [by apply (untouched_set_device k d)|].
  apply (untouched_dispatch k d); [done|].
  intros h Hin. by destruct (H2 d h Hin).
Qed.

Lemma untouched_open k env device nr w :
  k ≠ device → registry_ok w →
  untouched k w (open env (ADevice device) nr w).2.
Proof.
  intros Hne Hreg.
  apply (open_runs (λ w', registry_ok w' ∧ untouched k w w') device);
    [| | |split; [done|apply untouched_refl]].
  - intros e w0 _ [? ?]. split.
    + eapply registry_ok_same; [apply session_same_emit|done].
    + eapply untouched_trans; [done|apply untouched_emit].
  - intros w0 [? ?]. split.
    + eapply registry_ok_same; [apply session_same_state|done].
    + eapply untouched_trans; [done|by apply untouched_set_device].
  - intros w0 [? ?]. split; [by apply registry_ok_disconnect_event|].
    eapply untouched_trans; [done|by apply untouched_disconnect_event].
Qed.

(** X11.  Opening a device leaves every other device alone: the
    registry entry of another device, its link state and listeners, and
    the Sessions opened on it are the same afterwards, whatever the link
    and the peer do during the open. *)
Theorem open_leaves_other_devices_alone env device needsReconnect k w :
  reachable w → k ≠ device →
  let w' := (open env (ADevice device) needsReconnect w).2 in
  transportsCache w' !! k = transportsCache w !! k ∧
  devices w' k = devices w k ∧
  (∀ h, h < length (transports w) → id (this h w) = k →
        this h w' = this h w).
Proof.
  intros Hr Hne w'.
  destruct (inv_reachable w Hr) as (Hreg & _).
  by destruct (untouched_open k env device needsReconnect w Hne Hreg)
    as (_ & ? & ? & ?).
Qed.

(** X12.  The disconnect event of a device tears down the Sessions of
    that device only: the registry entry, the link state, the listeners
    and the Sessions of every other device are as before. *)
Theorem disconnect_event_leaves_other_devices_alone d k w :
  reachable w → k ≠ d →
  let w' := disconnect_event d w in
  transportsCache w' !! k = transportsCache w !! k ∧
  devices w' k = devices w k ∧
  (∀ h, id (this h w) = k → this h w' = this h w).
Proof.
  intros Hr Hne w'.
  destruct (inv_reachable w Hr) as (Hreg & _).
  destruct (untouched_disconnect_event k d w Hne Hreg) as (_ & ? & ? & Ht).
  split; [done|]. split; [done|].
  intros h Hid. destruct (decide (h < length (transports w))); [by apply Ht|].
  rewrite !this_out_of_range; [done|lia|].
  unfold w'. rewrite length_disconnect_event. lia.
Qed.

(** ** Asking for a disconnection, and the disconnection itself *)

(** X13.  [disconnect(id)] on a registered identifier asks the link
    stack to disconnect that very device, leaving its callback with the
    device, and does nothing else: until the disconnect event arrives
    the Session is still registered, still marked as not yet
    disconnected, and an open by identifier returns it. *)
Theorem disconnect_only_asks i h w :
  reachable w → transportsCache w !! i = Some h →
  disconnect i w
  = (Returned tt, emit (Disconnect i) (addListener i DisconnectCallback w)) ∧
  notYetDisconnected (this h (disconnect i w).2) = true ∧
  (∀ env, BluetoothTransport_open env (AnId i) (disconnect i w).2
          = (Returned (Session h), (disconnect i w).2)).
Proof.
  intros Hr Hc.
  destruct (inv_reachable w Hr) as ([H1 _] & _).
  destruct (H1 i h Hc) as (_ & Hid & Hfl & _).
  assert (disconnect i w
          = (Returned (),
             emit (Disconnect i) (addListener i DisconnectCallback w))) as ->.
  { unfold disconnect, property, device_disconnect. by rewrite Hc, Hid. }
  split; [done|]. split; [done|].
  intros env. by apply open_cached.
Qed.

Lemma state_onDisconnect h d w :
  state (devices (onDisconnect h w) d) = state (devices w d).
Proof.
  unfold onDisconnect. simpl. rewrite devices_update.
  destruct (decide (id (this h w) = d)) as [->|Hne].
  - by rewrite fn_lookup_insert.
  - by rewrite fn_lookup_insert_ne.
Qed.

Lemma listeners_onDisconnect h w :
  disconnectListeners (devices (onDisconnect h w) (id (this h w)))
  = filter (λ l, l ≠ OnDisconnect h)
      (disconnectListeners (devices w (id (this h w)))).
Proof.
  unfold onDisconnect. simpl. rewrite devices_update.
  by rewrite fn_lookup_insert.
Qed.

Lemma length_onDisconnect h w :
  length (transports (onDisconnect h w)) = length (transports w).
Proof. unfold onDisconnect. simpl. by rewrite length_update. Qed.

Lemma state_dispatch ls d d' w :
  state (devices (dispatch ls d w) d') = state (devices w d').
Proof.
  apply (dispatch_preserves
           (λ w', state (devices w' d') = state (devices w d'))); [| |done].
  - intros h w0 <-. apply state_onDisconnect.
  - intros l w0 _ <-. unfold removeOnce. simpl.
    destruct (decide (d = d')) as [->|Hne].
    + by rewrite fn_lookup_insert.
    + by rewrite fn_lookup_insert_ne.
Qed.

Lemma state_disconnect_event d w :
  state (devices (disconnect_event d w) d) = disconnected.
Proof.
  unfold disconnect_event. rewrite state_dispatch. simpl.
  by rewrite fn_lookup_insert.
Qed.

(** When only [onDisconnect] closures of device [d] are called, each of
    them is taken off the device. *)
Lemma listeners_called d ls w x :
  (∀ l, l ∈ ls → ∃ h, l = OnDisconnect h ∧ id (this h w) = d) →
  x ∈ disconnectListeners (devices (dispatch ls d w) d) →
  x ∈ disconnectListeners (devices w d) ∧ x ∉ ls.
Proof.
  revert w. induction ls as [|l ls IH]; intros w Hls; simpl.
  - intros Hx. split; [done|]. apply not_elem_of_nil.
  - destruct (Hls l) as (h & -> & Hid); [apply list_elem_of_here|].
    intros Hx. apply IH in Hx as [Hx Hnot].
    + rewrite <- Hid, listeners_onDisconnect, Hid in Hx.
      apply list_elem_of_filter in Hx as [Hne Hx].
      split; [done|]. rewrite elem_of_cons. by intros [?|?].
    + intros l Hin. destruct (Hls l) as (h' & -> & Hid');
        [by apply list_elem_of_further|].
      exists h'. by rewrite id_onDisconnect.
Qed.

Lemma flag_onDisconnect h h' w :
  h < length (transports w) →
  h = h' ∨ notYetDisconnected (this h w) = false →
  notYetDisconnected (this h (onDisconnect h' w)) = false.
Proof.
  intros Hlt Hor. unfold onDisconnect.
  change (notYetDisconnected
            (this h (update h' (with_notYetDisconnected false)
                       (set_cache (delete (id (this h' w)) (transportsCache w))
                          w))) = false).
  destruct (decide (h = h')) as [<-|Hne].
  - by rewrite this_update_eq.
  - rewrite this_update_ne by done. by destruct Hor.
Qed.

Lemma flag_called d ls w h :
  (∀ l, l ∈ ls → ∃ h, l = OnDisconnect h) →
  h < length (transports w) →
  OnDisconnect h ∈ ls ∨ notYetDisconnected (this h w) = false →
  notYetDisconnected (this h (dispatch ls d w)) = false.
Proof.
  revert w. induction ls as [|l ls IH]; intros w Hls Hlt Hor; simpl.
  - destruct Hor as [Hin|?]; [|done]. by apply not_elem_of_nil in Hin.
  - destruct (Hls l) as (h' & ->); [apply list_elem_of_here|].
    apply IH.
    + intros l Hin. by apply Hls, list_elem_of_further.
    + by rewrite length_onDisconnect.
    + destruct Hor as [Hin|Hfl].
      * apply elem_of_cons in Hin as [[= ->]|Hin]; [|by left].
        right. apply flag_onDisconnect; auto.
      * right. apply flag_onDisconnect; auto.
Qed.

(** X14.  When the listeners of a device are the [onDisconnect]
    closures of its Sessions (no callback of a [disconnect] request is
    waiting on it), the disconnect event tears everything down in one
    go: afterwards the device is disconnected, no listener is left on
    it, nothing is registered under its identifier and every Session
    that was listening is marked; a second disconnect event of the same
    device then changes neither the registry, nor any Session, nor the
    calls made to the link stack. *)
Theorem disconnect_event_tears_down_once d w :
  reachable w →
  (∀ l, l ∈ disconnectListeners (devices w d) → ∃ h, l = OnDisconnect h) →
  let w' := disconnect_event d w in
  state (devices w' d) = disconnected ∧
  disconnectListeners (devices w' d) = [] ∧
  transportsCache w' !! d = None ∧
  (∀ h, OnDisconnect h ∈ disconnectListeners (devices w d) →
        notYetDisconnected (this h w') = false) ∧
  transportsCache (disconnect_event d w') = transportsCache w' ∧
  transports (disconnect_event d w') = transports w' ∧
  trace (disconnect_event d w') = trace w'.
Proof.
  intros Hr Hall w'.
  destruct (inv_reachable w Hr) as (Hreg & _).
  pose proof (registry_ok_disconnect_event d w Hreg) as Hreg'.
  fold w' in Hreg'.
  assert (disconnectListeners (devices w' d) = []) as Hnone.
  { apply elem_of_nil_inv. intros x Hx. unfold w', disconnect_event in Hx.
    apply listeners_called in Hx as [Hx Hnot].
    - simpl in Hx. rewrite fn_lookup_insert in Hx. done.
    - intros l Hin. destruct (Hall l Hin) as [h ->]. exists h.
      split; [done|]. destruct Hreg as [_ H2]. by destruct (H2 d h Hin). }
  split; [apply state_disconnect_event|]. split; [done|].
  split; [|split].
  - destruct (transportsCache w' !! d) as [h|] eqn:Hc; [|done].
    destruct Hreg' as [H1 _]. destruct (H1 d h Hc) as (_ & _ & _ & Hin).
    rewrite Hnone in Hin. by apply not_elem_of_nil in Hin.
  - intros h Hin. unfold w', disconnect_event. apply flag_called.
    + done.
    + destruct Hreg as [_ H2]. by destruct (H2 d h Hin).
    + by left.
  - unfold disconnect_event. by rewrite Hnone.
Qed.

(** ** A disconnect request waiting on the device *)

Lemma dispatch_app before rest d w :
  (∀ l, l ∈ before → ∃ h, l = OnDisconnect h) →
  dispatch (before ++ rest) d w = dispatch rest d (dispatch before d w).
Proof.
  revert w. induction before as [|l before IH]; intros w Hall; [done|].
  destruct (Hall l) as [h ->]; [apply list_elem_of_here|]. simpl.
  apply IH. intros l Hin. by apply Hall, list_elem_of_further.
Qed.

Lemma this_onDisconnect_ne h h' w :
  h ≠ h' → this h (onDisconnect h' w) = this h w.
Proof.
  intros Hne. unfold onDisconnect.
  change (this h (update h' (with_notYetDisconnected false)
                    (set_cache (delete (id (this h' w)) (transportsCache w)) w))
          = this h w).
  by rewrite this_update_ne.
Qed.

Lemma this_removeOnce h d l w : this h (removeOnce d l w) = this h w.
Proof. reflexivity. Qed.

Lemma listener_stays_onDisconnect h h' d w :
  h ≠ h' →
  OnDisconnect h ∈ disconnectListeners (devices w d) →
  OnDisconnect h ∈ disconnectListeners (devices (onDisconnect h' w) d).
Proof.
  intros Hne Hin. unfold onDisconnect. simpl. rewrite devices_update.
  destruct (decide (id (this h' w) = d)) as [->|Hd].
  - rewrite fn_lookup_insert. simpl. apply list_elem_of_filter.
    split; [congruence|done].
  - by rewrite fn_lookup_insert_ne.
Qed.

(** A Session whose listener is not called is not touched and goes on
    listening. *)
Lemma dispatch_passes_by h d ls w :
  (∀ l, l ∈ ls → ∃ h', l = OnDisconnect h') →
  OnDisconnect h ∉ ls →
  this h (dispatch ls d w) = this h w ∧
  (OnDisconnect h ∈ disconnectListeners (devices w d) →
   OnDisconnect h ∈ disconnectListeners (devices (dispatch ls d w) d)).
Proof.
  revert w. induction ls as [|l ls IH]; intros w Hall Hnot; [done|].
  destruct (Hall l) as [h' ->]; [apply list_elem_of_here|]. simpl.
  apply not_elem_of_cons in Hnot as [Hne Hnot].
  assert (h ≠ h') as Hh by congruence.
  destruct (IH (onDisconnect h' w)) as [Ht Hl]; [|done|].
  { intros l Hin. by apply Hall, list_elem_of_further. }
  split.
  - by rewrite Ht, this_onDisconnect_ne.
  - intros Hin. by apply Hl, listener_stays_onDisconnect.
Qed.

Lemma cache_dispatch_sub ls d w :
  transportsCache (dispatch ls d w) ⊆ transportsCache w.
Proof.
  apply (dispatch_preserves (λ w', transportsCache w' ⊆ transportsCache w));
    [| |done].
  - intros h w0 Hw0. etrans; [apply cache_onDisconnect_sub|done].
  - by intros l w0 _ Hw0.
Qed.

(** X19.  The callback the module hands to [device.disconnect] cuts the
    teardown short.  When such a callback waits on a device behind the
    [onDisconnect] closures [before], the disconnect event marks the
    Sessions of [before] and removes what is registered under the
    identifier of the device; the Sessions whose closures come after the
    callback are not told: they are unchanged, so still marked as not
    yet disconnected when they were, and they go on listening. *)
Theorem disconnect_callback_stops_the_teardown d w before after :
  reachable w →
  disconnectListeners (devices w d) = before ++ DisconnectCallback :: after →
  (∀ l, l ∈ before → ∃ h, l = OnDisconnect h) →
  let w' := disconnect_event d w in
  state (devices w' d) = disconnected ∧
  (∀ h, OnDisconnect h ∈ before →
        notYetDisconnected (this h w') = false) ∧
  (before ≠ [] → transportsCache w' !! d = None) ∧
  (∀ h, OnDisconnect h ∈ after → OnDisconnect h ∉ before →
        this h w' = this h w ∧
        OnDisconnect h ∈ disconnectListeners (devices w' d)).
Proof.
  intros Hr Hls Hall w'.
  destruct (inv_reachable w Hr) as ([_ Hreg] & _).
  set (w1 := set_device d
               (mkDevice disconnected (disconnectListeners (devices w d))) w).
  assert (w' = removeOnce d DisconnectCallback (dispatch before d w1)) as Hw'.
  { unfold w', disconnect_event. fold w1. rewrite Hls.
    by rewrite dispatch_app. }
  split; [apply state_disconnect_event|]. split; [|split].
  - intros h Hin. rewrite Hw', this_removeOnce. apply flag_called; [done| |by left].
    apply (Hreg d h). rewrite Hls, elem_of_app. by left.
  - intros Hne. rewrite Hw'.
    change (transportsCache (dispatch before d w1) !! d = None).
    destruct before as [|l before']; [done|].
    destruct (Hall l) as [h ->]; [apply list_elem_of_here|]. simpl.
    eapply lookup_weaken_None; [|apply cache_dispatch_sub].
    assert (id (this h w1) = d) as Hid.
    { apply (Hreg d h). rewrite Hls. apply list_elem_of_here. }
    unfold onDisconnect. simpl. rewrite cache_update, Hid. simpl.
    apply lookup_delete_eq.
  - intros h Hin Hnot. rewrite Hw'.
    destruct (dispatch_passes_by h d before w1 Hall Hnot) as [Ht Hl].
    split; [by rewrite this_removeOnce, Ht|].
    unfold removeOnce. simpl. rewrite fn_lookup_insert. simpl.
    apply elem_of_without; [done|]. apply Hl.
    unfold w1. simpl. rewrite fn_lookup_insert. simpl.
    rewrite Hls, elem_of_app. right. by apply list_elem_of_further.
Qed.

(** ** The frames written by [open] *)






(** ** What an exchange changes *)

Lemma lock_only_refl h w : lock_only h w w.
Proof. by repeat split. Qed.

Lemma lock_only_emit h e w : lock_only h w (emit e w).
Proof. by repeat split. Qed.

Lemma lock_only_trans h w1 w2 w3 :
  lock_only h w1 w2 → lock_only h w2 w3 → lock_only h w1 w3.
Proof.
  intros (Hc & Hd & Hn & Hs & Ho) (Hc' & Hd' & Hn' & Hs' & Ho').
  split; [congruence|]. split; [congruence|]. split; [congruence|]. split.
  - intros h'. destruct (Hs h') as (E1 & E2 & E3).
    destruct (Hs' h') as (E1' & E2' & E3'). by rewrite E1', E2', E3'.
  - intros h' Hne. rewrite <- (Ho h' Hne). by apply Ho'.
Qed.

Lemma lock_only_update h f w :
  (∀ T, id (f T) = id T) → (∀ T, mtuSize (f T) = mtuSize T) →
  (∀ T, notYetDisconnected (f T) = notYetDisconnected T) →
  lock_only h w (update h f w).
Proof.
  intros Hi Hm Hf.
  split; [apply cache_update|]. split; [apply devices_update|].
  split; [apply length_update|]. split.
  - intros h'. split; [|split].
    + by apply (this_update_keeps w id).
    + by apply (this_update_keeps w mtuSize).
    + by apply (this_update_keeps w notYetDisconnected).
  - intros h' Hne. by apply this_update_ne.
Qed.

(** X17.  An exchange changes nothing but the lock of its own Session
    and the list of calls made to the link stack: its arrival, each
    frame it writes and its settling, successful or not, leave the
    registry, the devices and their listeners, the identifier, packet
    budget and disconnection mark of every Session, and every other
    Session as they were. *)
Theorem exchange_changes_only_its_lock h apdu call buffer o w :
  lock_only h w (exchange_call h apdu w) ∧
  lock_only h w (write h call buffer w) ∧
  lock_only h w (exchange_settle h o w).2.
Proof.
  split; [|split].
  - unfold exchange_call, lock_enter.
    eapply lock_only_trans; [apply lock_only_emit|].
    apply lock_only_update;
      auto using id_enter, mtuSize_enter, notYetDisconnected_enter.
  - apply lock_only_emit.
  - unfold exchange_settle. destruct o as [data|e|]; simpl.
    + apply lock_only_update;
        auto using id_leave, mtuSize_leave, notYetDisconnected_leave.
    + destruct (notYetDisconnected (this h w)); simpl;
        apply lock_only_update;
        auto using id_leave, mtuSize_leave, notYetDisconnected_leave.
    + apply lock_only_refl.
Qed.

(** * Sample executions *)

Lemma sample_world_reachable : reachable sample_world.
Proof. apply reachable_given. apply given_more, given_nothing. Qed.

Lemma sample_two_devices_reachable : reachable sample_two_devices.
Proof. apply reachable_given. do 2 apply given_more. apply given_nothing. Qed.

Lemma sample_exchanging_reachable : reachable sample_exchanging.
Proof.
  eapply reachable_step; [apply sample_world_reachable|].
  apply step_exchange_call. vm_compute. lia.
Qed.

Lemma sample_second_frame_reachable : reachable sample_second_frame.
Proof.
  assert (reachable sample_queued) as H1.
  { eapply reachable_step; [apply sample_exchanging_reachable|].
    apply step_exchange_call. vm_compute. lia. }
  assert (reachable (write 0 1 [x05; x00; x01] sample_queued)) as H2.
  { eapply reachable_step; [exact H1|].
    apply (step_exchange_write 0 1 [xe0; x01]).
    - vm_compute. apply list_elem_of_In. simpl. tauto.
    - vm_compute. intros Hin. apply list_elem_of_In in Hin. simpl in Hin.
      intuition discriminate.
    - vm_compute. apply list_elem_of_In. simpl. tauto. }
  assert (reachable sample_first_frames) as H3.
  { eapply reachable_step; [exact H2|].
    apply (step_exchange_write 0 1 [xe0; x01]).
    - vm_compute. apply list_elem_of_In. simpl. tauto.
    - vm_compute. intros Hin. apply list_elem_of_In in Hin. simpl in Hin.
      intuition discriminate.
    - vm_compute. apply list_elem_of_In. simpl. tauto. }
  assert (reachable sample_first_done) as H4.
  { eapply reachable_step; [exact H3|].
    apply (step_exchange_settle 0 1 [xe0; x01]).
    - vm_compute. apply list_elem_of_In. simpl. tauto.
    - vm_compute. intros Hin. apply list_elem_of_In in Hin. simpl in Hin.
      intuition discriminate.
    - vm_compute. apply list_elem_of_In. simpl. tauto. }
  eapply reachable_step; [exact H4|].
  apply (step_exchange_write 0 2 [xe0; x02]).
  - vm_compute. apply list_elem_of_In. simpl. tauto.
  - vm_compute. intros Hin. apply list_elem_of_In in Hin. simpl in Hin.
    intuition discriminate.
  - vm_compute. apply list_elem_of_In. simpl. tauto.
Qed.

(** The frames of the negotiation, of the first exchange and of the
    second, in that order: the second exchange, called while the first
    was running, waits in the queue and gets the lock when the first
    settles. *)
Example queued_exchange_writes_after_the_first :
  write_calls 0 (trace sample_second_frame) = [0; 1; 1; 2] ∧
  exchangeBusyPromise (this 0 sample_queued) = Some 1 ∧
  waiting (this 0 sample_queued) = [2] ∧
  started (this 0 sample_queued) = [0; 1] ∧
  exchangeBusyPromise (this 0 sample_first_done) = Some 2 ∧
  started (this 0 sample_first_done) = [0; 1; 2] ∧
  settled (this 0 sample_first_done) = [0; 1].
Proof. vm_compute. repeat split. Qed.

(** C1 fails as stated: the peer announces 158 at offset 5 and the
    negotiation leaves the transport with packet budget 158, not
    158 - 3. *)
Lemma budget_is_not_announced_minus_three :
  first_control (buffers (answer x9e)) (ending (answer x9e)) = Returned 158%Z ∧
  mtuSize (this 0 (inferMTU 0 (answer x9e) false sample_transport).2) = 158%Z ∧
  mtuSize (this 0 (inferMTU 0 (answer x9e) false sample_transport).2)
  ≠ (158 - 3)%Z.
Proof. vm_compute. repeat split; discriminate. Qed.

Lemma negotiated_budget_witness :
  (inferMTU 0 (answer x9e) false (construct "D" init).2).1 = Returned 158%Z ∧
  mtuSize (this 0 (inferMTU 0 (answer x9e) false (construct "D" init).2).2)
  = 158%Z.
Proof.
  destruct (negotiated_budget 0 (answer x9e) false (construct "D" init).2 158)
    as [H1 H2]; [reflexivity|simpl; lia|reflexivity|].
  split; [exact H1|exact H2].
Defined.


Lemma packet_budget_witness :
  (20 ≤ mtuSize (this 0 sample_world))%Z ∧
  length (sets 0 (trace sample_world)) ≤ 1.
Proof.
  assert (0 < length (transports sample_world)) as Hlt by (vm_compute; lia).
  destruct (packet_budget_floor_and_single_update sample_world 0
              sample_world_reachable Hlt) as (_ & H1 & H2 & _).
  split; [exact H1|exact H2].
Defined.

Lemma exchanges_do_not_interleave_witness :
  exchangeBusyPromise (this 0 sample_second_frame) = Some 2 ∧
  StronglySorted le (write_calls 0 (trace sample_second_frame)).
Proof.
  destruct (exchanges_do_not_interleave sample_second_frame 0
              sample_second_frame_reachable) as (H1 & _ & _ & _ & _ & H2 & _).
  split; [|exact H2]. apply H1.
  - vm_compute. apply list_elem_of_In. simpl. tauto.
  - vm_compute. intros Hin. apply list_elem_of_In in Hin. simpl in Hin.
    intuition discriminate.
Defined.

Lemma close_waits_witness :
  (close 0 sample_exchanging).1 = CloseAwaits 1 ∧
  (close 0 sample_exchanging).2 = sample_exchanging ∧
  (close_resume 0 1 sample_failed_once).1 = CloseReturned.
Proof.
  destruct (close_waits_for_the_exchange sample_exchanging 0
              sample_exchanging_reachable) as (Hsame & _ & Hbusy).
  assert (exchangeBusyPromise (this 0 sample_exchanging) = Some 1) as Hb
    by reflexivity.
  destruct (Hbusy 1 Hb) as (Hawait & _ & _ & Hend).
  split; [exact Hawait|]. split; [exact Hsame|].
  apply (Hend (Thrown (LinkError "invalid sequence"))). discriminate.
Defined.

Lemma listen_adds_every_named_device_witness :
  "b" ∈ uuid <$> listen true
                   [Discover (mkPeripheral "a" (Some "Nano X"));
                    Discover (mkPeripheral "b" (Some "Nano S"));
                    Unsubscribe].
Proof.
  apply (listen_adds_every_named_device
           [Discover (mkPeripheral "a" (Some "Nano X"))]
           (mkPeripheral "b" (Some "Nano S")) [Unsubscribe]).
  - intros Hin. apply list_elem_of_In in Hin. simpl in Hin.
    destruct Hin as [Hin|[]]. discriminate.
  - exists "Nano S". repeat split; discriminate.
  - intros Hin. apply list_elem_of_In in Hin. simpl in Hin.
    intuition discriminate.
Defined.

Lemma first_control_frame_decides_witness :
  first_control [[x05; x00; x00]; [x08; x00; x00; x00; x00; x9e]; [x08]]
    StreamSilent
  = Returned 158%Z.
Proof.
  destruct (first_control_frame_decides [[x05; x00; x00]]
              [x08; x00; x00; x00; x00; x9e] [[x08]] StreamSilent)
    as [H _].
  - repeat constructor. exists 5%Z. split; [reflexivity|discriminate].
  - reflexivity.
  - exact H.
Defined.

Lemma packet_budget_fits_in_a_byte_witness :
  (20 ≤ mtuSize (this 0 sample_world) ≤ 255)%Z.
Proof.
  apply (packet_budget_fits_in_a_byte sample_world 0).
  apply sample_world_reachable.
Defined.

Lemma open_fails_before_a_session_exists_witness :
  let a := mkAttempt (Thrown (LinkError "timeout")) false (Returned tt) 0
             (answer x9e) false 700 in
  (BluetoothTransport_open [a; a] (ADevice "E") sample_world).1
  = Thrown (LinkError "timeout") ∧
  length (transports
            (BluetoothTransport_open [a; a] (ADevice "E") sample_world).2) = 1.
Proof.
  intros a.
  destruct (open_fails_before_a_session_exists a [a] "E" true sample_world
              (LinkError "timeout")) as (H1 & H2 & _).
  - left. split; reflexivity.
  - split; [exact H1|exact H2].
Defined.

Lemma open_leaves_other_devices_alone_witness :
  transportsCache
    (BluetoothTransport_open [attempt (answer x40) 100] (ADevice "E")
       sample_world).2 !! "D" = Some 0.
Proof.
  destruct (open_leaves_other_devices_alone [attempt (answer x40) 100] "E"
              true "D" sample_world) as (H & _).
  - apply sample_world_reachable.
  - discriminate.
  - exact H.
Defined.

Lemma disconnect_event_leaves_other_devices_alone_witness :
  transportsCache (disconnect_event "E" sample_two_devices) !! "D" = Some 0 ∧
  this 0 (disconnect_event "E" sample_two_devices) = this 0 sample_two_devices.
Proof.
  destruct (disconnect_event_leaves_other_devices_alone "E" "D"
              sample_two_devices) as (H1 & _ & H2).
  - apply sample_two_devices_reachable.
  - discriminate.
  - split; [exact H1|]. apply H2. reflexivity.
Defined.

Lemma disconnect_only_asks_witness :
  disconnect "D" sample_world
  = (Returned tt,
     emit (Disconnect "D") (addListener "D" DisconnectCallback sample_world)).
Proof.
  destruct (disconnect_only_asks "D" 0 sample_world) as (H & _).
  - apply sample_world_reachable.
  - reflexivity.
  - exact H.
Defined.

Lemma disconnect_event_tears_down_once_witness :
  disconnectListeners (devices (disconnect_event "D" sample_world) "D") = [] ∧
  notYetDisconnected (this 0 (disconnect_event "D" sample_world)) = false.
Proof.
  destruct (disconnect_event_tears_down_once "D" sample_world)
    as (_ & H1 & _ & H2 & _).
  - apply sample_world_reachable.
  - intros l Hin. vm_compute in Hin. apply list_elem_of_In in Hin.
    destruct Hin as [<-|[]]. by exists 0.
  - split; [exact H1|]. apply H2. vm_compute. apply list_elem_of_here.
Defined.

Lemma sample_request_waiting_reachable : reachable sample_request_waiting.
Proof. apply reachable_given. do 2 apply given_more. apply given_nothing. Qed.

Lemma disconnect_callback_stops_the_teardown_witness :
  notYetDisconnected (this 0 (disconnect_event "D" sample_request_waiting))
  = false ∧
  transportsCache (disconnect_event "D" sample_request_waiting) !! "D" = None ∧
  this 1 (disconnect_event "D" sample_request_waiting)
  = this 1 sample_request_waiting ∧
  notYetDisconnected (this 1 sample_request_waiting) = true.
Proof.
  destruct (disconnect_callback_stops_the_teardown "D" sample_request_waiting
              [OnDisconnect 0] [OnDisconnect 1]) as (_ & H1 & H2 & H3).
  - apply sample_request_waiting_reachable.
  - reflexivity.
  - intros l Hin. apply list_elem_of_singleton in Hin as ->. by exists 0.
  - split; [apply H1, list_elem_of_here|].
    split; [apply H2; discriminate|]. split; [|reflexivity].
    apply H3; [apply list_elem_of_here|].
    intros Hin. apply list_elem_of_singleton in Hin. discriminate.
Defined.
